(** * tiny-json-path: [getTinyJsonPath] and [setTinyJsonPath]

    A shallow embedding of the two exported functions of tiny-json-path,
    the getter and the setter for a small subset of JSONPath, and the
    properties their specification states.

    Conventions of the embedding.
    - A JavaScript string is the list of its UTF-16 code units; the cursor
      [i] into [path] is the unread suffix [path.slice(i)].
    - The target structure is a tree of values ([value]), without sharing.
      The setter mutates it in place; here it returns the structure as the
      call leaves it, together with how the call ended.
    - Numbers are integers (the functions never compute with the numbers
      of the structure); an index literal is read exactly up to [2^53].
    - Property access follows ECMAScript, in strict mode as in a module:
      own properties first, then the members a value inherits from the
      built-in prototypes.  Built-in objects reached that way are opaque
      ([VHost]); of their members only [caller] and [arguments] of a
      built-in function are followed, whose read throws a TypeError.  Any
      other step that would read or write inside a built-in object, or that
      rests on a conversion the host performs (an index literal above
      [2^53], a number that is no array index used as a property name, an
      assignment to an array's [length] by name, the [__proto__] accessor),
      ends the modelled call with [Beyond]: the model does not follow such a
      call, and nothing is stated about it. *)

From Equations Require Import Equations.
From stdpp Require Import gmap list strings.
From Stdlib Require Import NArith ZArith.

Set Warnings "-register-all".
Local Open Scope N_scope.

(** ** Strings and character classes *)

Abbreviation cu := N (only parsing).
Abbreviation jsstring := (list N) (only parsing).

(** A string literal of the development, as code units (ASCII only). *)
Definition js (s : string) : jsstring :=
  map Ascii.N_of_ascii (String.list_ascii_of_string s).

Definition DOLLAR : cu := 36.
Definition DOT : cu := 46.
Definition LBRACKET : cu := 91.
Definition RBRACKET : cu := 93.
Definition DQUOTE : cu := 34.
Definition SQUOTE : cu := 39.
Definition BACKSLASH : cu := 92.

Definition in_range (lo hi c : cu) : bool := (lo <=? c) && (c <=? hi).

(** [/\s/]: the white space and line terminator code points of ECMAScript. *)
Definition is_ws (c : cu) : bool :=
  in_range 9 13 c || (c =? 32) || (c =? 160) || (c =? 5760)
  || in_range 8192 8202 c || (c =? 8232) || (c =? 8233) || (c =? 8239)
  || (c =? 8287) || (c =? 12288) || (c =? 65279).

(** [/[0-9]/] *)
Definition is_digit (c : cu) : bool := in_range 48 57 c.

(** [/[A-Za-z0-9_\-]/] *)
Definition is_keychar (c : cu) : bool :=
  in_range 65 90 c || in_range 97 122 c || is_digit c || (c =? 95) || (c =? 45).

(** [while (/\s/.test(path[i])) i++] *)
Fixpoint eatWs (input : list cu) : list cu :=
  match input with
  | c :: rest => if is_ws c then eatWs rest else input
  | [] => []
  end.

(** [while (i < path.length && p(path[i])) i++], with the characters passed
    over ([path.slice(start, i)]) and the unread rest. *)
Fixpoint span (p : cu -> bool) (input : list cu) : list cu * list cu :=
  match input with
  | c :: rest =>
      if p c then let '(taken, rest') := span p rest in (c :: taken, rest')
      else ([], input)
  | [] => ([], [])
  end.

(** The value of a run of decimal digits ([parseInt(digits, 10)]). *)
Definition digits_value (ds : list cu) : N :=
  fold_left (fun acc d => acc * 10 + (d - 48)) ds 0.

(** Integers up to [2^53] are exact in the host's numbers. *)
Definition max_exact : N := 9007199254740992.

(** ** Segments and the scanner *)

Inductive segment :=
| SKey (key : jsstring)
| SIndex (index : N).

Definition is_index (seg : segment) : bool :=
  match seg with SIndex _ => true | SKey _ => false end.

(** What one turn of the scanning loop does, entered with [i < path.length]. *)
Inductive scan_result :=
| ScanSeg (seg : segment) (rest : list cu)   (* a segment; [continue] *)
| ScanSkip (rest : list cu)                  (* the [/\s/] branch; [continue] *)
| ScanStop (rest : list cu)                  (* [break] *)
| ScanError                                  (* [return undefined] / [return false] *)
| ScanBeyond.                                (* an index literal above [max_exact] *)

(** The [else] branch of the bracket case: digits, white space, [']']. *)
Definition scan_index (input : list cu) : scan_result :=
  let '(ds, rest) := span is_digit input in
  match eatWs rest with
  | c :: rest' =>
      if c =? RBRACKET then
        match ds with
        | [] => ScanError                     (* [parseInt("")] is [NaN] *)
        | _ => if digits_value ds <=? max_exact
               then ScanSeg (SIndex (digits_value ds)) rest'
               else ScanBeyond
        end
      else ScanError
  | [] => ScanError
  end.

(** The quoted-key branch, entered after the opening quote [q]. *)
Definition scan_quoted (q : cu) (input : list cu) : scan_result :=
  let '(s, rest) := span (fun c => negb (c =? q)) input in
  match rest with
  | _ :: rest1 =>                             (* the closing quote *)
      match eatWs rest1 with
      | c :: rest2 => if c =? RBRACKET then ScanSeg (SKey s) rest2 else ScanError
      | [] => ScanError
      end
  | [] => ScanError                           (* [path[i] !== q] at the end *)
  end.

Definition scan_segment (input : list cu) : scan_result :=
  match eatWs input with
  | c :: rest =>
      if c =? DOT then
        let '(key, rest') := span is_keychar (eatWs rest) in
        match key with
        | [] => ScanError                     (* [if (!key)] *)
        | _ => ScanSeg (SKey key) rest'
        end
      else if c =? LBRACKET then
        match eatWs rest with
        | q :: rest1 =>
            if (q =? DQUOTE) || (q =? SQUOTE) then scan_quoted q rest1
            else scan_index (q :: rest1)
        | [] => scan_index []
        end
      else if is_ws c then ScanSkip rest
      else ScanStop (c :: rest)
  | [] => ScanStop []
  end.

(** *** The scanner moves the cursor

    A turn of the scanning loop that continues has consumed input. *)
Lemma eatWs_length input : (length (eatWs input) <= length input)%nat.
Proof.
  induction input as [|c rest IH]; simpl; [lia|].
  destruct (is_ws c); simpl; lia.
Qed.

Lemma span_length p input taken rest :
  span p input = (taken, rest) -> (length taken + length rest = length input)%nat.
Proof.
  revert taken rest. induction input as [|c input IH]; intros taken rest; simpl.
  - intros [= <- <-]. reflexivity.
  - destruct (p c).
    + destruct (span p input) as [t r]. intros [= <- <-]. simpl.
      specialize (IH t r eq_refl). lia.
    + intros [= <- <-]. simpl. lia.
Qed.

Lemma scan_index_length input seg rest :
  scan_index input = ScanSeg seg rest -> (length rest < length input)%nat.
Proof.
  unfold scan_index. destruct (span is_digit input) as [ds r] eqn:Hs.
  apply span_length in Hs. pose proof (eatWs_length r) as Hw.
  destruct (eatWs r) as [|c r']; [discriminate|].
  destruct (c =? RBRACKET); [|discriminate].
  destruct ds; [discriminate|].
  destruct (_ <=? _); [|discriminate].
  intros [= _ <-]. simpl in *. lia.
Qed.

Lemma scan_quoted_length q input seg rest :
  scan_quoted q input = ScanSeg seg rest -> (length rest < length input)%nat.
Proof.
  unfold scan_quoted. destruct (span _ input) as [s r] eqn:Hs.
  apply span_length in Hs. destruct r as [|c0 r1]; [discriminate|].
  pose proof (eatWs_length r1) as Hw.
  destruct (eatWs r1) as [|c r2]; [discriminate|].
  destruct (c =? RBRACKET); [|discriminate].
  intros [= _ <-]. simpl in *. lia.
Qed.

Lemma scan_segment_length input seg rest :
  scan_segment input = ScanSeg seg rest -> (length rest < length input)%nat.
Proof.
  unfold scan_segment. pose proof (eatWs_length input) as Hw.
  destruct (eatWs input) as [|c r]; [discriminate|].
  destruct (c =? DOT).
  - pose proof (eatWs_length r) as Hw'.
    destruct (span is_keychar (eatWs r)) as [key r'] eqn:Hs.
    apply span_length in Hs. destruct key; [discriminate|].
    intros [= _ <-]. simpl in *. lia.
  - destruct (c =? LBRACKET).
    + pose proof (eatWs_length r) as Hw'.
      destruct (eatWs r) as [|q r1].
      * intros H%scan_index_length. simpl in *. lia.
      * destruct (_ || _).
        -- intros H%scan_quoted_length. simpl in *. lia.
        -- intros H%scan_index_length. simpl in *. lia.
    + destruct (is_ws c); discriminate.
Qed.

Lemma scan_segment_skip_length input rest :
  scan_segment input = ScanSkip rest -> (length rest < length input)%nat.
Proof.
  unfold scan_segment. pose proof (eatWs_length input) as Hw.
  destruct (eatWs input) as [|c r]; [discriminate|].
  destruct (c =? DOT).
  - destruct (span is_keychar (eatWs r)) as [key r']. destruct key; discriminate.
  - destruct (c =? LBRACKET).
    + unfold scan_index, scan_quoted.
      destruct (eatWs r) as [|q r1]; simpl.
      * discriminate.
      * destruct (_ || _).
        -- destruct (span _ r1) as [s0 [|? r2]]; [discriminate|].
           destruct (eatWs r2); [discriminate|].
           destruct (_ =? RBRACKET); discriminate.
        -- destruct (is_digit q).
           ++ destruct (span is_digit r1) as [ds r2].
              destruct (eatWs r2); [discriminate|].
              destruct (_ =? RBRACKET); [|discriminate].
              destruct (_ <=? _); discriminate.
           ++ destruct (eatWs (q :: r1)); [discriminate|].
              destruct (_ =? RBRACKET); discriminate.
    + destruct (is_ws c); [|discriminate].
      intros [= <-]. simpl in *. lia.
Qed.

(** ** Values *)

(** The kinds of value that have a built-in prototype. *)
Inductive kind := KObject | KArray | KString | KNumber | KBoolean.

(** Built-in objects of the host that a traversal can reach through
    inheritance: a built-in function, or the prototype object of a kind. *)
Inductive host_object :=
| HFunction
| HPrototype (k : kind).

(** An array is its element slots ([None] is an empty slot, a hole) and
    its other own properties; an object is its own properties. *)
Inductive value :=
| VUndefined
| VNull
| VBool (b : bool)
| VNum (n : Z)
| VStr (s : jsstring)
| VObject (props : gmap jsstring value)
| VArray (elems : list (option value)) (props : gmap jsstring value)
| VHost (h : host_object).

Definition empty_object : value := VObject ∅.   (* [{}] *)
Definition empty_array : value := VArray [] ∅.  (* [[]] *)

(** Object, array and string literals, for the examples. *)
Definition object_of (l : list (string * value)) : value :=
  VObject (list_to_map (map (fun '(k, x) => (js k, x)) l)).
Definition array_of (l : list value) : value := VArray (map Some l) ∅.
Definition text (s : string) : value := VStr (js s).

(** [x == null] *)
Definition is_nullish (x : value) : bool :=
  match x with VUndefined | VNull => true | _ => false end.

(** [typeof x === 'object'] *)
Definition typeof_object (x : value) : bool :=
  match x with
  | VNull | VObject _ | VArray _ _ | VHost (HPrototype _) => true
  | _ => false
  end.

(** [Array.isArray(x)]; [Array.prototype] is itself an array. *)
Definition isArray (x : value) : bool :=
  match x with
  | VArray _ _ | VHost (HPrototype KArray) => true
  | _ => false
  end.

(** Booleans, numbers and strings. *)
Definition is_primitive (x : value) : bool :=
  match x with VBool _ | VNum _ | VStr _ => true | _ => false end.

(** How a call ends: it returns, it throws, or it leaves what is modelled. *)
Inductive exn := TypeError | RangeError.

Inductive outcome (A : Type) :=
| Returns (a : A)
| Throws (e : exn)
| Beyond.
Arguments Returns {A} a.
Arguments Throws {A} e.
Arguments Beyond {A}.

(** ** Property access *)

(** The largest array length, [2^32 - 1]; array indices are below it. *)
Definition max_length : N := 4294967295.

(** The array index a property name denotes, if any: its canonical
    decimal form, below [max_length]. *)
Definition canonical_index (key : jsstring) : option N :=
  match key with
  | c :: more =>
      if forallb is_digit key && (negb (c =? 48) || bool_decide (more = []))
      then if digits_value key <? max_length then Some (digits_value key) else None
      else None
  | [] => None
  end.

(** The string-keyed members of [Object.prototype] other than [__proto__];
    every one is a function. *)
Definition object_prototype : list jsstring :=
  [ js "constructor"; js "hasOwnProperty"; js "isPrototypeOf";
    js "propertyIsEnumerable"; js "toLocaleString"; js "toString";
    js "valueOf"; js "__defineGetter__"; js "__defineSetter__";
    js "__lookupGetter__"; js "__lookupSetter__" ].

(** [caller] and [arguments] are accessors of [Function.prototype]
    that throw a TypeError for a function in strict mode and for a built-in
    function, which has no own property of these names. *)
Definition restricted : list jsstring := [ js "caller"; js "arguments" ].

(** The members of [Array.prototype], [String.prototype],
    [Number.prototype] and [Boolean.prototype] ([push], [trim], ...) depend
    on the version of the host, which is a parameter: [proto_member k key]
    says whether the prototype of kind [k] has a member named [key].  These
    members are functions too. *)
Class Host := { proto_member : kind -> jsstring -> bool }.

Inductive read :=
| Got (x : value)
| ReadThrows
| ReadBeyond.

Inductive write :=
| Stored (target : value)
| WriteThrows
| WriteBeyond.

(** [a[i] = x] on the element slots: in range the slot is replaced, past
    the end the array grows to [i + 1] with holes in between. *)
Definition store_elem (elems : list (option value)) (i : nat) (x : value)
  : list (option value) :=
  if decide (i < length elems)%nat then <[i := Some x]> elems
  else elems ++ replicate (i - length elems) None ++ [Some x].

Section Traversal.
Context {host : Host}.

(** A property that is not an own property, looked up along the
    prototype chain of a value of kind [k]. *)
Definition inherited (k : kind) (key : jsstring) : value :=
  if decide (key = js "__proto__") then VHost (HPrototype k)
  else if bool_decide (key ∈ object_prototype) then VHost HFunction
  else match k with
       | KObject => VUndefined
       | _ => if proto_member k key then VHost HFunction else VUndefined
       end.

(** [cur[key]] for a string [key].  Of the members of a built-in
    function only [caller] and [arguments] are followed: reading them throws
    a TypeError. *)
Definition get_prop (cur : value) (key : jsstring) : read :=
  match cur with
  | VUndefined | VNull => ReadThrows
  | VHost HFunction =>
      if bool_decide (key ∈ restricted) then ReadThrows else ReadBeyond
  | VHost (HPrototype _) => ReadBeyond
  | VBool _ => Got (inherited KBoolean key)
  | VNum _ => Got (inherited KNumber key)
  | VStr s =>
      match canonical_index key with
      | Some i =>
          match s !! N.to_nat i with
          | Some c => Got (VStr [c])
          | None => Got VUndefined
          end
      | None =>
          if decide (key = js "length") then Got (VNum (Z.of_nat (length s)))
          else Got (inherited KString key)
      end
  | VObject props =>
      match props !! key with
      | Some x => Got x
      | None => Got (inherited KObject key)
      end
  | VArray elems props =>
      match canonical_index key with
      | Some i =>
          match elems !! N.to_nat i with
          | Some (Some x) => Got x
          | _ => Got VUndefined
          end
      | None =>
          if decide (key = js "length") then Got (VNum (Z.of_nat (length elems)))
          else match props !! key with
               | Some x => Got x
               | None => Got (inherited KArray key)
               end
      end
  end.

(** [cur[idx]] for a number [idx]. *)
Definition get_index (cur : value) (idx : N) : read :=
  match cur with
  | VArray elems _ =>
      if idx <? max_length then
        match elems !! N.to_nat idx with
        | Some (Some x) => Got x
        | _ => Got VUndefined
        end
      else ReadBeyond
  | VUndefined | VNull => ReadThrows
  | _ => ReadBeyond
  end.

(** Own properties are written where they are; [__proto__] is an
    accessor of [Object.prototype] unless the target has an own property
    of that name. *)
Definition store_prop (props : gmap jsstring value) (key : jsstring) (x : value)
  : option (gmap jsstring value) :=
  if decide (key = js "__proto__") then
    match props !! key with
    | Some _ => Some (<[key := x]> props)
    | None => None
    end
  else Some (<[key := x]> props).

(** [cur[key] = x] for a string [key], in strict mode (module code). *)
Definition set_prop (cur : value) (key : jsstring) (x : value) : write :=
  match cur with
  | VUndefined | VNull => WriteThrows
  | VBool _ | VNum _ | VStr _ =>
      if decide (key = js "__proto__") then WriteBeyond else WriteThrows
  | VHost _ => WriteBeyond
  | VObject props =>
      match store_prop props key x with
      | Some props' => Stored (VObject props')
      | None => WriteBeyond
      end
  | VArray elems props =>
      match canonical_index key with
      | Some i => Stored (VArray (store_elem elems (N.to_nat i) x) props)
      | None =>
          if decide (key = js "length") then WriteBeyond
          else match store_prop props key x with
               | Some props' => Stored (VArray elems props')
               | None => WriteBeyond
               end
      end
  end.

(** [cur[idx] = x] for a number [idx]. *)
Definition set_index (cur : value) (idx : N) (x : value) : write :=
  match cur with
  | VArray elems props =>
      if idx <? max_length
      then Stored (VArray (store_elem elems (N.to_nat idx) x) props)
      else WriteBeyond
  | VUndefined | VNull => WriteThrows
  | _ => WriteBeyond
  end.

(** ** The getter *)

(** After a segment is scanned the getter either moves [cur] to a child
    and continues, or returns. *)
Inductive step :=
| Descend (child : value)
| Finish (result : outcome value).

Definition get_step (cur : value) (seg : segment) : step :=
  match seg with
  | SKey key =>
      if is_nullish cur then Finish (Returns VUndefined)
      else match get_prop cur key with
           | Got child => Descend child
           | ReadThrows => Finish (Throws TypeError)
           | ReadBeyond => Finish Beyond
           end
  | SIndex idx =>
      if negb (isArray cur) then Finish (Returns VUndefined)
      else match get_index cur idx with
           | Got child => Descend child
           | ReadThrows => Finish (Throws TypeError)
           | ReadBeyond => Finish Beyond
           end
  end.

Definition inspect {A} (a : A) : {b : A | a = b} := exist _ a eq_refl.

(** [while (i < path.length) { ... }] of the getter, from the cursor at
    [input] with the current value [cur]. *)
Equations? get_loop (input : list cu) (cur : value) : outcome value
  by wf (length input) lt :=
  get_loop [] cur := Returns cur;
  get_loop (c :: input') cur with inspect (scan_segment (c :: input')) => {
    | exist _ (ScanSeg seg rest) _ with get_step cur seg => {
        | Descend child := get_loop rest child;
        | Finish result := result };
    | exist _ (ScanSkip rest) _ := get_loop rest cur;
    | exist _ (ScanStop _) _ := Returns cur;
    | exist _ ScanError _ := Returns VUndefined;
    | exist _ ScanBeyond _ := Beyond }.
Proof.
  - eapply scan_segment_length; eassumption.
  - eapply scan_segment_skip_length; eassumption.
Qed.

Definition getTinyJsonPath (obj : value) (path : jsstring) : outcome value :=
  match path with
  | c :: rest => if c =? DOLLAR then get_loop rest obj else Returns VUndefined
  | [] => Returns VUndefined                  (* [!path] *)
  end.

(** ** The setter *)

(** How the first pass ends: the segments pushed and the unread input
    where the loop ended, or an early [return false]. *)
Inductive tokens :=
| Tokens (segs : list segment) (unread : list cu)
| TokError
| TokBeyond.

(** First pass: [while (i < path.length) { ... segs.push(...) ... }]. *)
Equations? tokenize (input : list cu) (segs : list segment) : tokens
  by wf (length input) lt :=
  tokenize [] segs := Tokens segs [];
  tokenize (c :: input') segs with inspect (scan_segment (c :: input')) => {
    | exist _ (ScanSeg seg rest) _ := tokenize rest (segs ++ [seg]);
    | exist _ (ScanSkip rest) _ := tokenize rest segs;
    | exist _ (ScanStop rest) _ := Tokens segs rest;
    | exist _ ScanError _ := TokError;
    | exist _ ScanBeyond _ := TokBeyond }.
Proof.
  - eapply scan_segment_length; eassumption.
  - eapply scan_segment_skip_length; eassumption.
Qed.

(** [cur = cur[seg.key]] makes [cur] an alias of the child held by its
    parent: what the rest of the walk does to the child is seen from the
    parent.  In a tree of values the child, as the walk leaves it, is put
    back in the slot it was read from.  Built-in objects are not part of
    the structure. *)
Definition write_back (parent : value) (seg : segment) (child : value) : value :=
  match child with
  | VHost _ => parent
  | _ =>
      match parent, seg with
      | VObject props, SKey key => VObject (<[key := child]> props)
      | VArray elems props, SKey key =>
          match canonical_index key with
          | Some i => VArray (<[N.to_nat i := Some child]> elems) props
          | None => VArray elems (<[key := child]> props)
          end
      | VArray elems props, SIndex idx =>
          VArray (<[N.to_nat idx := Some child]> elems) props
      | _, _ => parent
      end
  end.

(** [(next.type === 'index') ? [] : {}] *)
Definition fresh_container (next : segment) : value :=
  if is_index next then empty_array else empty_object.

Definition read_slot (cur : value) (seg : segment) : read :=
  match seg with
  | SKey key => get_prop cur key
  | SIndex idx => get_index cur idx
  end.

Definition write_slot (cur : value) (seg : segment) (x : value) : write :=
  match seg with
  | SKey key => set_prop cur key x
  | SIndex idx => set_index cur idx x
  end.

(** How the setter ends and the structure it leaves. *)
Definition ended (w : write) (cur : value) : outcome bool * value :=
  match w with
  | Stored cur' => (Returns true, cur')
  | WriteThrows => (Throws TypeError, cur)
  | WriteBeyond => (Beyond, cur)
  end.

(** Final segment assignment. *)
Definition assign_last (cur : value) (last : segment) (x : value)
  : outcome bool * value :=
  match last with
  | SKey key =>
      if is_nullish cur || negb (typeof_object cur) then (Returns false, cur)
      else ended (set_prop cur key x) cur
  | SIndex idx =>
      if negb (isArray cur) then (Returns false, cur)
      else match cur with
           | VArray elems props =>
               if N.of_nat (length elems) <=? idx then     (* [idx >= cur.length] *)
                 if max_length <? idx + 1                   (* [cur.length = idx + 1] *)
                 then (Throws RangeError, cur)
                 else ended
                        (set_index (VArray (resize (N.to_nat (idx + 1)) None elems) props)
                                   idx x) cur
               else ended (set_index cur idx x) cur
           | _ => (Beyond, cur)                             (* [Array.prototype] *)
           end
  end.

(** Second pass, at segment [seg] with the segments [more] after it:
    a turn of the [for] loop while [more] is not empty, then the final
    assignment.  The two branches of the loop body differ in the slot they
    address ([cur[seg.key]] or [cur[idx]]) and in the guard
    [!Array.isArray(cur)] of the index branch; its other guard, [idx < 0],
    never holds for a scanned index.  After [cur[seg.key] = ...] the
    source reads the slot again; here the walk goes on with the container
    just stored. *)
Fixpoint walk (cur : value) (seg : segment) (more : list segment) (x : value)
  : outcome bool * value :=
  match more with
  | [] => assign_last cur seg x
  | next :: more' =>
      if is_index seg && negb (isArray cur) then (Returns false, cur)
      else
        match read_slot cur seg with
        | Got child =>
            if is_nullish child then
              match write_slot cur seg (fresh_container next) with
              | Stored cur' =>
                  let '(r, child') := walk (fresh_container next) next more' x in
                  (r, write_back cur' seg child')
              | WriteThrows => (Throws TypeError, cur)
              | WriteBeyond => (Beyond, cur)
              end
            else if negb (typeof_object child) then (Returns false, cur)
            else
              let '(r, child') := walk child next more' x in
              (r, write_back cur seg child')
        | ReadThrows => (Throws TypeError, cur)
        | ReadBeyond => (Beyond, cur)
        end
  end.

(** What follows the first pass: [if (segs.length === 0) return false],
    then the walk from the root. *)
Definition second_pass (obj : value) (segs : list segment) (x : value)
  : outcome bool * value :=
  match segs with
  | [] => (Returns false, obj)
  | seg :: more => walk obj seg more x
  end.

Definition setTinyJsonPath (obj : value) (path : jsstring) (x : value)
  : outcome bool * value :=
  match path with
  | c :: rest =>
      if c =? DOLLAR then
        match tokenize rest [] with
        | Tokens segs _ => second_pass obj segs x
        | TokError => (Returns false, obj)
        | TokBeyond => (Beyond, obj)
        end
      else (Returns false, obj)
  | [] => (Returns false, obj)                     (* [!path] *)
  end.

End Traversal.

(** ** The tests and scenarios of the repository *)

Section Tests.
Context {host : Host}.

Example get_nested_dot_path :
  getTinyJsonPath (object_of [("a", object_of [("b", object_of [("c", VNum 42)])])])
                  (js "$.a.b.c") = Returns (VNum 42).
Proof. vm_compute. reflexivity. Qed.

Example get_root_array_index_and_key :
  getTinyJsonPath (array_of [object_of [("x", text "ok")]; object_of [("x", text "yes")]])
                  (js "$[1].x") = Returns (text "yes").
Proof. vm_compute. reflexivity. Qed.

Example get_whitespace_tolerant :
  getTinyJsonPath
    (object_of [("users", array_of [object_of [("name", text "A")];
                                    object_of [("name", text "B")]])])
    (js "$  .  users  [ 1 ]  .  name  ") = Returns (text "B").
Proof. vm_compute. reflexivity. Qed.

Example get_escaped_quote_is_undefined :
  getTinyJsonPath (object_of [("o'clock", text "twelve")]) (js "$['o\'clock']")
    = Returns VUndefined.
Proof. vm_compute. reflexivity. Qed.

Example get_missing_root_marker :
  getTinyJsonPath (object_of [("a", VNum 1)]) (js "a.b") = Returns VUndefined.
Proof. vm_compute. reflexivity. Qed.

Example get_index_on_non_array :
  getTinyJsonPath (object_of [("a", VNum 1)]) (js "$.a[0]") = Returns VUndefined.
Proof. vm_compute. reflexivity. Qed.

Example get_out_of_bounds :
  getTinyJsonPath (array_of [VNum 1; VNum 2; VNum 3]) (js "$[9]") = Returns VUndefined.
Proof. vm_compute. reflexivity. Qed.

Example get_empty_key_after_dot :
  getTinyJsonPath (object_of [("a", VNum 1)]) (js "$.") = Returns VUndefined.
Proof. vm_compute. reflexivity. Qed.

Example set_object_array_object :
  setTinyJsonPath (object_of []) (js "$.a[0].b") (text "ok")
    = (Returns true, object_of [("a", array_of [object_of [("b", text "ok")]])]).
Proof. vm_compute. reflexivity. Qed.

Example set_array_expansion_with_holes :
  setTinyJsonPath (object_of [("a", array_of [])]) (js "$.a[3]") (VNum 9)
    = (Returns true, object_of [("a", VArray [None; None; None; Some (VNum 9)] ∅)]).
Proof. vm_compute. reflexivity. Qed.

Example set_mixed_nesting_and_whitespace :
  setTinyJsonPath (object_of []) (js "$  .  users  [ 2 ]  .  name  ") (text "Zed")
    = (Returns true,
       object_of [("users", VArray [None; None; Some (object_of [("name", text "Zed")])] ∅)]).
Proof. vm_compute. reflexivity. Qed.

Example set_index_on_non_array_fails :
  setTinyJsonPath (object_of [("a", VNum 1)]) (js "$.a[0]") (text "x")
    = (Returns false, object_of [("a", VNum 1)]).
Proof. vm_compute. reflexivity. Qed.

Example set_traverse_through_non_object_fails :
  setTinyJsonPath (object_of [("a", VNum 5)]) (js "$.a.b") (VNum 1)
    = (Returns false, object_of [("a", VNum 5)]).
Proof. vm_compute. reflexivity. Qed.

Example set_last_index_but_not_array_fails :
  setTinyJsonPath (object_of [("a", object_of [])]) (js "$.a[0]") (VNum 1)
    = (Returns false, object_of [("a", object_of [])]).
Proof. vm_compute. reflexivity. Qed.

Example set_non_numeric_index_fails :
  setTinyJsonPath (object_of []) (js "$[abc]") (VNum 1) = (Returns false, object_of []).
Proof. vm_compute. reflexivity. Qed.

Example set_array_in_array_from_empty_array :
  setTinyJsonPath (array_of []) (js "$[1][2]") (text "X")
    = (Returns true, VArray [None; Some (VArray [None; None; Some (text "X")] ∅)] ∅).
Proof. vm_compute. reflexivity. Qed.

Example set_growth_preserves_earlier_indices :
  setTinyJsonPath (object_of [("a", array_of [text "x"])]) (js "$.a[3]") (text "y")
    = (Returns true,
       object_of [("a", VArray [Some (text "x"); None; None; Some (text "y")] ∅)]).
Proof. vm_compute. reflexivity. Qed.

(** With one segment the setter checks the root before it writes. *)
Example set_single_key_on_null_root :
  setTinyJsonPath VNull (js "$.a") (VNum 1) = (Returns false, VNull).
Proof. vm_compute. reflexivity. Qed.

End Tests.

(** * Properties *)

(** ** The loops, one turn at a time *)

Section LoopFacts.
Context {host : Host}.

Lemma get_loop_body input cur :
  get_loop input cur =
  match input with
  | [] => Returns cur
  | _ =>
      match scan_segment input with
      | ScanSeg seg rest =>
          match get_step cur seg with
          | Descend child => get_loop rest child
          | Finish result => result
          end
      | ScanSkip rest => get_loop rest cur
      | ScanStop _ => Returns cur
      | ScanError => Returns VUndefined
      | ScanBeyond => Beyond
      end
  end.
Proof.
  funelim (get_loop input cur); try reflexivity.
  all: try (rewrite e; reflexivity).
  all: rewrite e, Heq; reflexivity.
Qed.

End LoopFacts.

Lemma tokenize_body input segs :
  tokenize input segs =
  match input with
  | [] => Tokens segs []
  | _ =>
      match scan_segment input with
      | ScanSeg seg rest => tokenize rest (segs ++ [seg])
      | ScanSkip rest => tokenize rest segs
      | ScanStop rest => Tokens segs rest
      | ScanError => TokError
      | ScanBeyond => TokBeyond
      end
  end.
Proof.
  funelim (tokenize input segs); try reflexivity.
  all: rewrite e; reflexivity.
Qed.

(** Induction on the unread input, for the loops that scan it. *)
Lemma shorter_ind (P : list cu -> Prop) :
  (forall input, (forall rest, (length rest < length input)%nat -> P rest) -> P input) ->
  forall input, P input.
Proof.
  intros step input. remember (length input) as n eqn:Hn.
  revert input Hn. induction n as [n IH] using lt_wf_ind.
  intros input ->. apply step. intros rest Hlt. exact (IH _ Hlt rest eq_refl).
Qed.

(** The segments pushed so far are a prefix of the result. *)
Definition prepend (acc : list segment) (t : tokens) : tokens :=
  match t with
  | Tokens segs unread => Tokens (acc ++ segs) unread
  | TokError => TokError
  | TokBeyond => TokBeyond
  end.

Lemma prepend_app acc acc' t : prepend acc (prepend acc' t) = prepend (acc ++ acc') t.
Proof. destruct t; simpl; [rewrite app_assoc|..]; reflexivity. Qed.

Lemma tokenize_acc input acc : tokenize input acc = prepend acc (tokenize input []).
Proof.
  revert acc. induction input as [input IH] using shorter_ind. intros acc.
  rewrite (tokenize_body input acc), (tokenize_body input []).
  destruct input as [|c input']; simpl; [by rewrite app_nil_r|].
  destruct (scan_segment (c :: input')) as [seg rest|rest|rest| |] eqn:E; simpl;
    try by rewrite ?app_nil_r.
  - apply scan_segment_length in E.
    rewrite (IH rest E (acc ++ [seg])), (IH rest E [seg]), prepend_app. reflexivity.
  - apply scan_segment_skip_length in E. apply IH, E.
Qed.

(** ** Reading along the segments of a path *)

Section Reading.
Context {host : Host}.

(** The getter's steps for a list of segments, in order. *)
Fixpoint get_segs (cur : value) (segs : list segment) : outcome value :=
  match segs with
  | [] => Returns cur
  | seg :: more =>
      match get_step cur seg with
      | Descend child => get_segs child more
      | Finish result => result
      end
  end.

(** On a path the first pass accepts, the getter performs the steps of
    its segments: both run the same scanner over the same input. *)
Lemma get_loop_tokens input cur segs unread :
  tokenize input [] = Tokens segs unread ->
  get_loop input cur = get_segs cur segs.
Proof.
  revert cur segs. induction input as [input IH] using shorter_ind.
  intros cur segs. rewrite get_loop_body, tokenize_body.
  destruct input as [|c input']; [by intros [= <- <-]|].
  destruct (scan_segment (c :: input')) as [seg rest|rest|rest| |] eqn:E;
    try discriminate.
  - apply scan_segment_length in E. simpl. rewrite tokenize_acc.
    destruct (tokenize rest []) as [segs' unread'| |] eqn:T; try discriminate.
    simpl. intros [= <- <-]. simpl.
    destruct (get_step cur seg); [|reflexivity]. by apply IH.
  - apply scan_segment_skip_length in E. by apply IH.
  - by intros [= <- <-].
Qed.

End Reading.

(** ** Containers and their slots *)

(** A mapping-like value (a plain object), a sequence-like value (an
    array), or neither. *)
Inductive shape := Mapping | Sequence | Other.

Definition shape_of (x : value) : shape :=
  match x with
  | VObject _ => Mapping
  | VArray _ _ => Sequence
  | _ => Other
  end.

Definition is_container (x : value) : bool :=
  match x with VObject _ | VArray _ _ => true | _ => false end.

Lemma store_elem_lookup elems i x : store_elem elems i x !! i = Some (Some x).
Proof.
  unfold store_elem. case_decide as Hi.
  - by apply list_lookup_insert_eq.
  - rewrite app_assoc, lookup_app_r; rewrite length_app, length_replicate; [|lia].
    replace (i - (length elems + (i - length elems)))%nat with 0%nat by lia.
    reflexivity.
Qed.

Lemma store_elem_length elems i x :
  length (store_elem elems i x) = (length elems `max` S i)%nat.
Proof.
  unfold store_elem. case_decide as Hi.
  - rewrite length_insert. lia.
  - rewrite !length_app, length_replicate. simpl. lia.
Qed.

Section Slots.
Context {host : Host}.

Lemma store_prop_lookup props key x props' :
  store_prop props key x = Some props' -> props' !! key = Some x.
Proof.
  unfold store_prop. case_decide.
  - destruct (props !! key); [|discriminate]. intros [= <-]. apply lookup_insert_eq.
  - intros [= <-]. apply lookup_insert_eq.
Qed.

(** What is written to a property is what is read from it. *)
Lemma get_set_prop cur key x cur' :
  set_prop cur key x = Stored cur' -> get_prop cur' key = Got x.
Proof.
  destruct cur; simpl; try discriminate.
  - case_decide; discriminate.
  - case_decide; discriminate.
  - case_decide; discriminate.
  - destruct (store_prop props key x) as [props'|] eqn:S; [|discriminate].
    intros [= <-]. simpl. by rewrite (store_prop_lookup _ _ _ _ S).
  - destruct (canonical_index key) as [i|] eqn:C.
    + intros [= <-]. simpl. rewrite C, store_elem_lookup. reflexivity.
    + case_decide as L; [discriminate|].
      destruct (store_prop props key x) as [props'|] eqn:S; [|discriminate].
      intros [= <-]. simpl. rewrite C. case_decide; [done|].
      by rewrite (store_prop_lookup _ _ _ _ S).
Qed.

Lemma get_set_index cur idx x cur' :
  set_index cur idx x = Stored cur' -> get_index cur' idx = Got x.
Proof.
  destruct cur; simpl; try discriminate.
  destruct (idx <? max_length) eqn:B; [|discriminate].
  intros [= <-]. simpl. rewrite B, store_elem_lookup. reflexivity.
Qed.

Lemma read_write_slot cur seg x cur' :
  write_slot cur seg x = Stored cur' -> read_slot cur' seg = Got x.
Proof. destruct seg; [apply get_set_prop | apply get_set_index]. Qed.

(** A write keeps the shape of its target, and only containers take one. *)
Lemma set_prop_shape cur key x cur' :
  set_prop cur key x = Stored cur' ->
  is_container cur' = true /\ shape_of cur' = shape_of cur.
Proof.
  destruct cur; simpl; try discriminate; try (case_decide; discriminate).
  - destruct (store_prop _ _ _); [|discriminate]. by intros [= <-].
  - destruct (canonical_index key); [by intros [= <-]|].
    case_decide; [discriminate|].
    destruct (store_prop _ _ _); [|discriminate]. by intros [= <-].
Qed.

Lemma set_index_shape cur idx x cur' :
  set_index cur idx x = Stored cur' -> shape_of cur' = Sequence /\ shape_of cur = Sequence.
Proof.
  destruct cur; simpl; try discriminate.
  destruct (_ <? _); [|discriminate]. by intros [= <-].
Qed.

Lemma write_slot_shape cur seg x cur' :
  write_slot cur seg x = Stored cur' ->
  is_container cur' = true /\ shape_of cur' = shape_of cur.
Proof.
  destruct seg; simpl.
  - apply set_prop_shape.
  - intros [H1 H2]%set_index_shape. rewrite H1, H2.
    destruct cur'; try discriminate. done.
Qed.

Lemma write_back_shape parent seg child :
  shape_of (write_back parent seg child) = shape_of parent.
Proof.
  unfold write_back.
  destruct child; try reflexivity;
    destruct parent; try reflexivity; destruct seg; try reflexivity;
    simpl; destruct (canonical_index _); reflexivity.
Qed.

End Slots.

(** ** The second pass *)

Section Walk.
Context {host : Host}.

Lemma ended_shape w cur :
  (forall cur', w = Stored cur' -> shape_of cur' = shape_of cur) ->
  shape_of (snd (ended w cur)) = shape_of cur.
Proof. destruct w; simpl; auto. Qed.

Lemma assign_last_shape cur last x :
  shape_of (snd (assign_last cur last x)) = shape_of cur.
Proof.
  destruct last as [key|idx]; simpl.
  - destruct (_ || _); [reflexivity|].
    apply ended_shape. intros cur' H. by apply set_prop_shape in H as [_ ?].
  - destruct (negb (isArray cur)); [reflexivity|].
    destruct cur; try reflexivity.
    destruct (_ <=? _); [destruct (_ <? _); [reflexivity|]|];
      simpl; destruct (idx <? max_length); reflexivity.
Qed.

(** The walk leaves a mapping a mapping and a sequence a sequence. *)
Lemma walk_shape more : forall cur seg x,
  shape_of (snd (walk cur seg more x)) = shape_of cur.
Proof.
  induction more as [|next more' IH]; intros cur seg x; simpl.
  - apply assign_last_shape.
  - destruct (_ && _); [reflexivity|].
    destruct (read_slot cur seg) as [child| |]; try reflexivity.
    destruct (is_nullish child).
    + destruct (write_slot cur seg _) as [cur'| |] eqn:W; try reflexivity.
      destruct (walk _ next more' x) as [r child']. simpl.
      rewrite write_back_shape. by apply write_slot_shape in W as [_ ?].
    + destruct (negb _); [reflexivity|].
      destruct (walk child next more' x) as [r child']. simpl.
      apply write_back_shape.
Qed.

(** Nothing is assigned inside a built-in object. *)
Lemma walk_host h seg more x : fst (walk (VHost h) seg more x) <> Returns true.
Proof.
  destruct more as [|next more']; simpl.
  - destruct seg as [key|idx]; simpl.
    + destruct h; simpl; discriminate.
    + destruct h as [|[]]; simpl; discriminate.
  - destruct seg as [key|idx]; simpl.
    + destruct h; [destruct (bool_decide _)|]; discriminate.
    + destruct h as [|[]]; simpl; discriminate.
Qed.

(** After the final assignment the getter's step reads the value. *)
Lemma assign_last_get cur last x cur' :
  assign_last cur last x = (Returns true, cur') -> get_step cur' last = Descend x.
Proof.
  destruct last as [key|idx]; simpl.
  - destruct (_ || _); [discriminate|].
    destruct (set_prop cur key x) as [c| |] eqn:W; simpl; try discriminate.
    intros [= <-]. pose proof (set_prop_shape _ _ _ _ W) as [Hc _].
    rewrite (get_set_prop _ _ _ _ W). by destruct c.
  - destruct (negb (isArray cur)); [discriminate|].
    destruct cur; try discriminate.
    destruct (_ <=? _); [destruct (_ <? _); [discriminate|]|].
    all: simpl; destruct (idx <? max_length) eqn:B; simpl; try discriminate;
         intros [= <-]; simpl; by rewrite B, store_elem_lookup.
Qed.

(** A container just created in a slot, as the walk leaves it, is what
    the getter finds in that slot. *)
Lemma step_after_write cur seg y cur1 child' :
  write_slot cur seg y = Stored cur1 ->
  is_container child' = true ->
  get_step (write_back cur1 seg child') seg = Descend child'.
Proof.
  intros W Hc.
  destruct cur; destruct seg as [key|idx]; simpl in W; try discriminate;
    try (case_decide; discriminate).
  - destruct (store_prop _ _ _) as [props'|]; [|discriminate]. injection W as <-.
    destruct child'; try discriminate; simpl; by rewrite lookup_insert_eq.
  - destruct (canonical_index key) as [i|] eqn:C.
    + injection W as <-.
      assert (N.to_nat i < length (store_elem elems (N.to_nat i) y))%nat
        by (rewrite store_elem_length; lia).
      destruct child'; try discriminate; simpl; rewrite C; simpl; rewrite C;
        by rewrite list_lookup_insert_eq.
    + case_decide as L; [discriminate|].
      destruct (store_prop _ _ _) as [props'|]; [|discriminate]. injection W as <-.
      destruct child'; try discriminate; simpl; rewrite C; simpl; rewrite C;
        (case_decide; [done|]); by rewrite lookup_insert_eq.
  - destruct (idx <? max_length) eqn:B; [|discriminate]. injection W as <-.
    assert (N.to_nat idx < length (store_elem elems (N.to_nat idx) y))%nat
      by (rewrite store_elem_length; lia).
    destruct child'; try discriminate; simpl; rewrite B;
      by rewrite list_lookup_insert_eq.
Qed.

(** The same for a container that was already there. *)
Lemma step_after_descend cur seg child child' :
  is_index seg && negb (isArray cur) = false ->
  read_slot cur seg = Got child ->
  is_container child = true ->
  is_container child' = true ->
  get_step (write_back cur seg child') seg = Descend child'.
Proof.
  intros G R Hc Hc'.
  destruct cur as [| |b|n|s|props|elems props|h]; destruct seg as [key|idx];
    simpl in R, G; try discriminate;
    try (destruct h; [destruct (bool_decide _)|]; discriminate).
  - (* a boolean *) injection R as <-. unfold inherited in Hc.
    repeat (case_decide || destruct (bool_decide _) || destruct (proto_member _ _));
      discriminate.
  - (* a number *) injection R as <-. unfold inherited in Hc.
    repeat (case_decide || destruct (bool_decide _) || destruct (proto_member _ _));
      discriminate.
  - (* a string *)
    destruct (canonical_index key).
    + destruct (s !! _); injection R as <-; discriminate.
    + unfold inherited in R.
      repeat (case_decide || destruct (bool_decide _) || destruct (proto_member _ _));
        injection R as <-; discriminate.
  - (* an object *)
    destruct child'; try discriminate; simpl; by rewrite lookup_insert_eq.
  - (* an array, by name *)
    destruct (canonical_index key) as [i|] eqn:C.
    + destruct (elems !! N.to_nat i) as [[y|]|] eqn:E;
        injection R as <-; try discriminate.
      apply lookup_lt_Some in E.
      destruct child'; try discriminate; simpl; rewrite C; simpl; rewrite C;
        by rewrite list_lookup_insert_eq.
    + case_decide as L; [injection R as <-; discriminate|].
      destruct (props !! key) as [y|] eqn:E; injection R as <-.
      2:{ unfold inherited in Hc.
          repeat (case_decide || destruct (bool_decide _) || destruct (proto_member _ _));
            discriminate. }
      destruct child'; try discriminate; simpl; rewrite C; simpl; rewrite C;
        (case_decide; [done|]); by rewrite lookup_insert_eq.
  - (* an array, by index *)
    destruct (idx <? max_length) eqn:B; [|discriminate].
    destruct (elems !! N.to_nat idx) as [[y|]|] eqn:E;
      injection R as <-; try discriminate.
    apply lookup_lt_Some in E.
    destruct child'; try discriminate; simpl; rewrite B;
      by rewrite list_lookup_insert_eq.
Qed.

Lemma container_shape x : is_container x = true <-> shape_of x <> Other.
Proof. destruct x; simpl; split; congruence. Qed.

Lemma fresh_container_is next : is_container (fresh_container next) = true.
Proof. unfold fresh_container. by destruct (is_index next). Qed.

(** Round trip over segments: when the second pass succeeds, reading
    along the same segments yields the value assigned. *)
Lemma walk_roundtrip more : forall cur seg x cur',
  walk cur seg more x = (Returns true, cur') ->
  get_segs cur' (seg :: more) = Returns x.
Proof.
  induction more as [|next more' IH]; intros cur seg x cur'; simpl.
  - intros H%assign_last_get. by rewrite H.
  - destruct (_ && _) eqn:G; [discriminate|].
    destruct (read_slot cur seg) as [child| |] eqn:R; try discriminate.
    destruct (is_nullish child) eqn:Nl.
    + destruct (write_slot cur seg _) as [cur1| |] eqn:W; try discriminate.
      destruct (walk _ next more' x) as [r child'] eqn:Wk. intros [= -> <-].
      assert (is_container child' = true) as Hc'.
      { apply container_shape. pose proof (walk_shape more' (fresh_container next) next x) as S.
        rewrite Wk in S. simpl in S. rewrite S. apply container_shape, fresh_container_is. }
      rewrite (step_after_write _ _ _ _ _ W Hc'). by apply (IH _ _ _ _ Wk).
    + destruct (negb (typeof_object child)) eqn:Ty; [discriminate|].
      destruct (walk child next more' x) as [r child'] eqn:Wk. intros [= -> <-].
      assert (is_container child = true) as Hc.
      { destruct child as [| | | | | | |h]; try discriminate; try reflexivity.
        exfalso. apply (walk_host h next more' x). by rewrite Wk. }
      assert (is_container child' = true) as Hc'.
      { apply container_shape. pose proof (walk_shape more' child next x) as S.
        rewrite Wk in S. simpl in S. rewrite S. by apply container_shape. }
      rewrite (step_after_descend _ _ _ _ G R Hc Hc'). by apply (IH _ _ _ _ Wk).
Qed.

End Walk.

(** ** Where a step of the getter ends the call *)

Section Safety.
Context {host : Host}.

(** Past the guard [cur == null] a read by name throws only for [caller]
    and [arguments] of a built-in function. *)
Lemma get_prop_defined cur key :
  is_nullish cur = false -> get_prop cur key = ReadThrows ->
  cur = VHost HFunction /\ key ∈ restricted.
Proof.
  destruct cur as [| |b|n|s|props|elems props|[|k]]; simpl; try discriminate; intros _.
  - destruct (canonical_index key); [destruct (_ !! _)|case_decide]; discriminate.
  - destruct (_ !! _); discriminate.
  - destruct (canonical_index key) as [i|].
    + destruct (_ !! _) as [[|]|]; discriminate.
    + case_decide; [discriminate|]. destruct (_ !! _); discriminate.
  - destruct (bool_decide _) eqn:B; [|discriminate].
    intros _. split; [done|]. by apply bool_decide_eq_true_1 in B.
Qed.

Lemma get_index_defined cur idx :
  isArray cur = true -> get_index cur idx <> ReadThrows.
Proof.
  destruct cur; simpl; try discriminate; intros _.
  destruct (_ <? _); [|discriminate]. destruct (_ !! _) as [[|]|]; discriminate.
Qed.

(** A step ends the call with [undefined], by leaving what is modelled,
    or with the TypeError of such a read. *)
Lemma get_step_finish cur seg result :
  get_step cur seg = Finish result ->
  result = Returns VUndefined \/ result = Beyond \/
  (result = Throws TypeError /\ cur = VHost HFunction /\
   exists key, seg = SKey key /\ key ∈ restricted).
Proof.
  destruct seg as [key|idx]; simpl.
  - destruct (is_nullish cur) eqn:Nl; [intros [= <-]; by left|].
    pose proof (get_prop_defined cur key Nl) as H.
    destruct (get_prop cur key); try done; intros [= <-]; [|by right; left].
    destruct H as [-> Hk]; [done|]. right; right. eauto.
  - destruct (isArray cur) eqn:A; simpl; [|intros [= <-]; by left].
    pose proof (get_index_defined cur idx A).
    destruct (get_index cur idx); try done. intros [= <-]. by right; left.
Qed.

(** A step that ends the call with a value ends it with [undefined]. *)
Lemma get_step_returns cur seg v :
  get_step cur seg = Finish (Returns v) -> v = VUndefined.
Proof.
  intros [[= ->] | [? | [? _]]]%get_step_finish; [done|discriminate..].
Qed.

End Safety.

(** ** The scanner on the grammar of paths *)

Lemma is_ws_range c : is_ws c = true -> c <= 13 \/ c = 32 \/ 160 <= c.
Proof.
  unfold is_ws, in_range.
  rewrite !orb_true_iff, !andb_true_iff, !N.leb_le, !N.eqb_eq. lia.
Qed.

Lemma is_digit_range c : is_digit c = true <-> 48 <= c <= 57.
Proof. unfold is_digit, in_range. rewrite andb_true_iff, !N.leb_le. lia. Qed.

Lemma is_keychar_range c : is_keychar c = true -> 45 <= c <= 122.
Proof.
  unfold is_keychar, is_digit, in_range.
  rewrite !orb_true_iff, !andb_true_iff, !N.leb_le, !N.eqb_eq. lia.
Qed.

(** A run of white space. *)
Definition blank (w : list cu) : Prop := Forall (fun c => is_ws c = true) w.

(** [input] is at its end or starts with a character that [p] rejects. *)
Definition stops (p : cu -> bool) (input : list cu) : Prop :=
  match input with
  | c :: _ => p c = false
  | [] => True
  end.

Lemma eatWs_blank w input : blank w -> eatWs (w ++ input) = eatWs input.
Proof. induction 1 as [|c w Hc _ IH]; simpl; [done|]. by rewrite Hc. Qed.

Lemma eatWs_stops input : stops is_ws input -> eatWs input = input.
Proof. destruct input as [|c input]; simpl; [done|]. by intros ->. Qed.

Lemma eatWs_blank_stops w input :
  blank w -> stops is_ws input -> eatWs (w ++ input) = input.
Proof. intros Hw Hs. by rewrite eatWs_blank, eatWs_stops. Qed.

Lemma span_app p taken input :
  Forall (fun c => p c = true) taken -> stops p input ->
  span p (taken ++ input) = (taken, input).
Proof.
  induction 1 as [|c taken Hc _ IH]; intros Hs; simpl.
  - destruct input as [|c input]; simpl in *; [done|]. by rewrite Hs.
  - by rewrite Hc, IH.
Qed.

Lemma stops_blank_app p w input :
  (forall c, is_ws c = true -> p c = false) -> blank w -> stops p input ->
  stops p (w ++ input).
Proof. intros Hp [|c w' Hc _]; simpl; auto. Qed.

Lemma ws_not_digit c : is_ws c = true -> is_digit c = false.
Proof.
  intros H%is_ws_range. apply not_true_is_false. intros D%is_digit_range. lia.
Qed.

Lemma ws_not_keychar c : is_ws c = true -> is_keychar c = false.
Proof.
  intros H%is_ws_range. apply not_true_is_false. intros D%is_keychar_range. lia.
Qed.

Lemma ws_not c d : is_ws c = true -> 33 <= d <= 159 -> (c =? d) = false.
Proof. intros H%is_ws_range Hd. apply N.eqb_neq. lia. Qed.

(** The three forms of a segment, with the white space the scanner
    skips: [w1 . w2 key], [w1 [ w2 'key' w3 ]] and [w1 [ w2 digits w3 ]]. *)
Inductive piece :=
| PDot (w1 w2 : list cu) (key : list cu)
| PQuoted (w1 w2 : list cu) (q : cu) (key : list cu) (w3 : list cu)
| PIndex (w1 w2 : list cu) (digits : list cu) (w3 : list cu).

Definition render_piece (p : piece) : list cu :=
  match p with
  | PDot w1 w2 key => w1 ++ DOT :: w2 ++ key
  | PQuoted w1 w2 q key w3 => w1 ++ LBRACKET :: w2 ++ q :: key ++ q :: w3 ++ [RBRACKET]
  | PIndex w1 w2 digits w3 => w1 ++ LBRACKET :: w2 ++ digits ++ w3 ++ [RBRACKET]
  end.

Definition render (ps : list piece) : list cu := concat (map render_piece ps).

(** The piece with its white space removed. *)
Definition strip (p : piece) : piece :=
  match p with
  | PDot _ _ key => PDot [] [] key
  | PQuoted _ _ q key _ => PQuoted [] [] q key []
  | PIndex _ _ digits _ => PIndex [] [] digits []
  end.

Definition well_formed (p : piece) : Prop :=
  match p with
  | PDot w1 w2 key =>
      blank w1 /\ blank w2 /\ key <> [] /\ Forall (fun c => is_keychar c = true) key
  | PQuoted w1 w2 q key w3 =>
      blank w1 /\ blank w2 /\ blank w3 /\ (q = DQUOTE \/ q = SQUOTE)
      /\ Forall (fun c => negb (c =? q) = true) key
  | PIndex w1 w2 digits w3 =>
      blank w1 /\ blank w2 /\ blank w3 /\ digits <> []
      /\ Forall (fun c => is_digit c = true) digits
  end.

(** What the scanner makes of a piece: its segment, or nothing when the
    index is above [max_exact]. *)
Definition token_of (p : piece) : option segment :=
  match p with
  | PDot _ _ key | PQuoted _ _ _ key _ => Some (SKey key)
  | PIndex _ _ digits _ =>
      if digits_value digits <=? max_exact then Some (SIndex (digits_value digits))
      else None
  end.

Definition scanned (t : option segment) (rest : list cu) : scan_result :=
  match t with
  | Some seg => ScanSeg seg rest
  | None => ScanBeyond
  end.

Lemma scan_segment_blank w input :
  blank w -> scan_segment (w ++ input) = scan_segment input.
Proof. intros Hw. unfold scan_segment. by rewrite eatWs_blank. Qed.

Lemma scan_piece p rest :
  well_formed p -> stops is_keychar rest ->
  scan_segment (render_piece p ++ rest) = scanned (token_of p) rest.
Proof.
  destruct p as [w1 w2 key|w1 w2 q key w3|w1 w2 ds w3]; simpl.
  - intros (Hw1 & Hw2 & Hk & Hkey) Hs. rewrite <- app_assoc. simpl.
    rewrite scan_segment_blank by done. unfold scan_segment. simpl.
    rewrite <- app_assoc, eatWs_blank_stops; [|done|].
    + rewrite span_app by done. by destruct key.
    + destruct key as [|c key]; [done|]. simpl.
      inversion Hkey as [|? ? Hc _]; subst.
      apply not_true_is_false. intros W%ws_not_keychar. congruence.
  - intros (Hw1 & Hw2 & Hw3 & Hq & Hkey) _. rewrite <- app_assoc. simpl.
    rewrite scan_segment_blank by done. unfold scan_segment. simpl.
    rewrite <- app_assoc, eatWs_blank_stops; [|done|].
    + simpl. replace ((q =? DQUOTE) || (q =? SQUOTE)) with true
        by (destruct Hq as [-> | ->]; reflexivity).
      unfold scan_quoted. rewrite <- app_assoc. simpl.
      rewrite span_app; [|done|simpl; by rewrite N.eqb_refl].
      rewrite <- app_assoc. simpl. rewrite eatWs_blank_stops; [|done|done].
      reflexivity.
    + simpl. destruct Hq as [-> | ->]; reflexivity.
  - intros (Hw1 & Hw2 & Hw3 & Hd & Hds) _. rewrite <- app_assoc. simpl.
    rewrite scan_segment_blank by done. unfold scan_segment. simpl.
    rewrite <- !app_assoc. simpl.
    destruct ds as [|d ds]; [done|]. inversion Hds as [|? ? Hc Hds']; subst.
    assert (is_ws d = false) as Hwd
      by (apply not_true_is_false; intros W%ws_not_digit; congruence).
    rewrite eatWs_blank_stops; [|done|done]. simpl.
    apply is_digit_range in Hc as Hr.
    replace ((d =? DQUOTE) || (d =? SQUOTE)) with false
      by (symmetry; apply orb_false_iff; split; apply N.eqb_neq;
          unfold DQUOTE, SQUOTE; lia).
    unfold scan_index.
    change (d :: ds ++ w3 ++ RBRACKET :: rest) with ((d :: ds) ++ w3 ++ RBRACKET :: rest).
    rewrite (span_app is_digit (d :: ds) (w3 ++ RBRACKET :: rest)); [|by constructor|].
    + rewrite eatWs_blank_stops; [|done|done]. simpl. by destruct (_ <=? _).
    + apply stops_blank_app; [apply ws_not_digit|done|done].
Qed.

Lemma render_cons p ps rest :
  render (p :: ps) ++ rest = render_piece p ++ render ps ++ rest.
Proof. unfold render. simpl. by rewrite <- app_assoc. Qed.

Lemma render_piece_stops p rest :
  well_formed p -> stops is_keychar (render_piece p ++ rest).
Proof.
  assert (forall w input, blank w -> stops is_keychar input ->
          stops is_keychar (w ++ input)) as Hb
    by (intros; apply stops_blank_app; auto using ws_not_keychar).
  destruct p; simpl; intros (Hw1 & _); rewrite <- app_assoc; by apply Hb.
Qed.

Lemma render_stops ps rest :
  Forall well_formed ps -> stops is_keychar rest -> stops is_keychar (render ps ++ rest).
Proof.
  intros [|p ps' Hp _] Hs; [done|]. rewrite render_cons. by apply render_piece_stops.
Qed.

Lemma render_piece_not_nil p rest : render_piece p ++ rest <> [].
Proof. destruct p, w1; simpl; discriminate. Qed.

Lemma scan_segment_only_blank w : blank w -> scan_segment w = ScanStop [].
Proof.
  intros Hw. unfold scan_segment.
  rewrite <- (app_nil_r w), eatWs_blank by done. reflexivity.
Qed.

Lemma tokenize_blank w acc : blank w -> tokenize w acc = Tokens acc [].
Proof.
  intros Hw. rewrite tokenize_body. destruct w; [done|].
  by rewrite scan_segment_only_blank.
Qed.

(** The first pass over scanned pieces, then [k] on what follows them. *)
Fixpoint tokenize_pieces (toks : list (option segment)) (acc : list segment)
    (k : list segment -> tokens) : tokens :=
  match toks with
  | [] => k acc
  | Some seg :: more => tokenize_pieces more (acc ++ [seg]) k
  | None :: _ => TokBeyond
  end.

Lemma tokenize_render ps rest : forall acc,
  Forall well_formed ps -> stops is_keychar rest ->
  tokenize (render ps ++ rest) acc =
  tokenize_pieces (map token_of ps) acc (tokenize rest).
Proof.
  induction ps as [|p ps IH]; intros acc Hps Hs; [done|].
  inversion Hps as [|? ? Hp Hps']; subst.
  rewrite render_cons, tokenize_body.
  destruct (render_piece p ++ render ps ++ rest) eqn:E;
    [by apply render_piece_not_nil in E|]. rewrite <- E.
  rewrite scan_piece by auto using render_stops. simpl.
  destruct (token_of p); simpl; [by apply IH|done].
Qed.

Section Pieces.
Context {host : Host}.

Lemma get_loop_blank w cur : blank w -> get_loop w cur = Returns cur.
Proof.
  intros Hw. rewrite get_loop_body. destruct w; [done|].
  by rewrite scan_segment_only_blank.
Qed.

(** The getter over scanned pieces, then [k] on what follows them. *)
Fixpoint get_pieces (cur : value) (toks : list (option segment))
    (k : value -> outcome value) : outcome value :=
  match toks with
  | [] => k cur
  | Some seg :: more =>
      match get_step cur seg with
      | Descend child => get_pieces child more k
      | Finish result => result
      end
  | None :: _ => Beyond
  end.

Lemma get_loop_render ps rest : forall cur,
  Forall well_formed ps -> stops is_keychar rest ->
  get_loop (render ps ++ rest) cur =
  get_pieces cur (map token_of ps) (get_loop rest).
Proof.
  induction ps as [|p ps IH]; intros cur Hps Hs; [done|].
  inversion Hps as [|? ? Hp Hps']; subst.
  rewrite render_cons, get_loop_body.
  destruct (render_piece p ++ render ps ++ rest) eqn:E;
    [by apply render_piece_not_nil in E|]. rewrite <- E.
  rewrite scan_piece by auto using render_stops. simpl.
  destruct (token_of p); simpl; [|done].
  destruct (get_step cur s); [by apply IH|done].
Qed.

End Pieces.

Lemma token_of_strip p : token_of (strip p) = token_of p.
Proof. by destruct p. Qed.

Lemma well_formed_strip p : well_formed p -> well_formed (strip p).
Proof.
  destruct p; simpl; intros H; repeat split; try apply Forall_nil; tauto.
Qed.

Lemma blank_stops_keychar w : blank w -> stops is_keychar w.
Proof. intros [|c w' Hc _]; simpl; auto using ws_not_keychar. Qed.

(** ** Segments and the containers they address *)

(** A key segment is served by any value of type object that is data (a
    mapping or a sequence), an index segment by a sequence only. *)
Definition serves (cur : value) (seg : segment) : Prop :=
  match seg with
  | SKey _ => shape_of cur <> Other
  | SIndex _ => shape_of cur = Sequence
  end.

Section Addressing.
Context {host : Host}.

(** The containers on the way of [segs] from [cur] serve their segments. *)
Fixpoint served_along (cur : value) (segs : list segment) : Prop :=
  match segs with
  | [] => True
  | seg :: more =>
      serves cur seg /\
      match get_step cur seg with
      | Descend child => served_along child more
      | Finish _ => True
      end
  end.

Lemma inherited_not_container k key : is_container (inherited k key) = false.
Proof.
  unfold inherited.
  repeat (case_decide || destruct (bool_decide _) || destruct k
          || destruct (proto_member _ _)); reflexivity.
Qed.

(** Only a container holds a container. *)
Lemma container_parent cur seg child :
  read_slot cur seg = Got child -> is_container child = true ->
  is_container cur = true.
Proof.
  destruct cur as [| |b|n|s|props|elems props|h]; destruct seg as [key|idx];
    simpl; try discriminate; try done.
  - intros [= <-]. by rewrite inherited_not_container.
  - intros [= <-]. by rewrite inherited_not_container.
  - destruct (canonical_index key); [destruct (_ !! _)|case_decide];
      intros [= <-]; try discriminate. by rewrite inherited_not_container.
  - destruct h; [destruct (bool_decide _)|]; discriminate.
Qed.

(** A child that the walk left as it was is put back without a change. *)
Lemma write_back_same cur seg child :
  is_index seg && negb (isArray cur) = false ->
  read_slot cur seg = Got child ->
  is_nullish child = false -> typeof_object child = true ->
  write_back cur seg child = cur.
Proof.
  intros G R Nl Ty.
  destruct child as [| | | | |cp|ce cp|h]; try discriminate; try reflexivity.
  all: pose proof (container_parent _ _ _ R eq_refl) as Hc.
  all: destruct cur; try discriminate; destruct seg as [key|idx];
       simpl in R, G; try discriminate; simpl.
  all: try (destruct (props !! key) as [y|] eqn:E; injection R as R;
            [subst y; by rewrite insert_id
            |pose proof (inherited_not_container KObject key) as I;
             rewrite R in I; discriminate]).
  all: try (destruct (canonical_index key) as [i|] eqn:C;
            [destruct (elems !! N.to_nat i) as [[y|]|] eqn:E; injection R as R;
               try discriminate; subst y; by rewrite list_insert_id
            |case_decide; [discriminate|];
             destruct (props !! key) as [y|] eqn:E; injection R as R;
             [subst y; by rewrite insert_id
             |pose proof (inherited_not_container KArray key) as I;
              rewrite R in I; discriminate]]).
  all: destruct (idx <? max_length); [|discriminate];
       destruct (elems !! N.to_nat idx) as [[y|]|] eqn:E; injection R as R;
       try discriminate; subst y; by rewrite list_insert_id.
Qed.

Lemma get_step_read cur seg child :
  get_step cur seg = Descend child ->
  is_index seg && negb (isArray cur) = false /\ read_slot cur seg = Got child.
Proof.
  destruct seg as [key|idx]; simpl.
  - destruct (is_nullish cur); [discriminate|].
    destruct (get_prop cur key); try discriminate. by intros [= <-].
  - destruct (isArray cur); simpl; [|discriminate].
    destruct (get_index cur idx); try discriminate. by intros [= <-].
Qed.

Lemma get_step_nullish cur seg :
  is_nullish cur = true -> get_step cur seg = Finish (Returns VUndefined).
Proof. destruct cur; try discriminate; by destruct seg. Qed.

Lemma get_segs_nullish cur segs :
  is_nullish cur = true -> segs <> [] -> get_segs cur segs = Returns VUndefined.
Proof.
  intros Nl. destruct segs as [|seg more]; [done|]. intros _. simpl.
  by rewrite get_step_nullish.
Qed.

Lemma get_step_finish_not_primitive cur seg p :
  get_step cur seg = Finish (Returns p) -> is_primitive p = false.
Proof.
  destruct seg as [key|idx]; simpl.
  - destruct (is_nullish cur); [by intros [= <-]|].
    destruct (get_prop cur key); discriminate.
  - destruct (negb (isArray cur)); [by intros [= <-]|].
    destruct (get_index cur idx); discriminate.
Qed.

(** An existing primitive in the slot of a segment that is not the last
    makes the second pass return [false], the structure as it was. *)
Lemma walk_primitive pre : forall cur seg post x p,
  post <> [] ->
  get_segs cur (pre ++ [seg]) = Returns p -> is_primitive p = true ->
  second_pass cur (pre ++ seg :: post) x = (Returns false, cur).
Proof.
  induction pre as [|s0 pre IH]; intros cur seg post x p Hpost; simpl.
  - destruct (get_step cur seg) as [child|r] eqn:S.
    + intros [= ->] Hp. apply get_step_read in S as [G R].
      destruct post as [|next post']; [done|]. simpl. rewrite G, R.
      by destruct p.
    + intros -> Hp. apply get_step_finish_not_primitive in S. congruence.
  - destruct (get_step cur s0) as [child|r] eqn:S.
    2:{ intros -> Hp. apply get_step_finish_not_primitive in S. congruence. }
    intros Hg Hp. apply get_step_read in S as [G R].
    destruct (pre ++ seg :: post) as [|next more] eqn:E;
      [by destruct pre|].
    simpl. rewrite G, R.
    destruct (is_nullish child) eqn:Nl.
    { rewrite get_segs_nullish in Hg; [|done|by destruct pre].
      injection Hg as <-. discriminate. }
    destruct (typeof_object child) eqn:Ty; simpl; [|reflexivity].
    specialize (IH child seg post x p Hpost Hg Hp). rewrite E in IH. simpl in IH.
    rewrite IH. by rewrite write_back_same.
Qed.

Lemma serves_shape cur cur' seg :
  shape_of cur' = shape_of cur -> serves cur seg -> serves cur' seg.
Proof. intros E. destruct seg; simpl; by rewrite E. Qed.

(** The second pass succeeds only from a container that serves the
    segment it starts with. *)
Lemma walk_serves more cur seg x cur' :
  walk cur seg more x = (Returns true, cur') -> serves cur seg.
Proof.
  assert (is_container cur = true ->
          is_index seg && negb (isArray cur) = false -> serves cur seg) as Hcont.
  { destruct cur; try discriminate; destruct seg; simpl; congruence. }
  destruct more as [|next more']; simpl.
  - destruct seg as [key|idx]; simpl.
    + destruct (_ || _); [discriminate|].
      destruct (set_prop cur key x) as [c| |] eqn:W; try discriminate.
      intros _. apply set_prop_shape in W as [Hc E]. rewrite <- E.
      by apply container_shape.
    + destruct (negb (isArray cur)); [discriminate|].
      destruct cur; try discriminate. reflexivity.
  - destruct (_ && _) eqn:G; [discriminate|].
    destruct (read_slot cur seg) as [child| |] eqn:R; try discriminate.
    destruct (is_nullish child) eqn:Nl.
    + destruct (write_slot cur seg _) as [cur1| |] eqn:W; try discriminate.
      intros _. apply write_slot_shape in W as [Hc E].
      apply Hcont; [|done]. apply container_shape. rewrite <- E.
      by apply container_shape.
    + destruct (negb (typeof_object child)) eqn:Ty; [discriminate|].
      destruct (walk child next more' x) as [r child'] eqn:Wk. intros [= -> _].
      apply Hcont; [|done]. apply (container_parent _ _ _ R).
      destruct child as [| | | | | | |h]; try discriminate; try reflexivity.
      exfalso. apply (walk_host h next more' x). by rewrite Wk.
Qed.

(** When the second pass succeeds, every container on the way serves the
    segment that addresses it. *)
Lemma walk_served more : forall cur seg x cur',
  walk cur seg more x = (Returns true, cur') ->
  served_along cur' (seg :: more).
Proof.
  induction more as [|next more' IH]; intros cur seg x cur' H.
  all: pose proof (walk_serves _ _ _ _ _ H) as Hs.
  all: match type of H with walk _ _ ?m _ = _ =>
         pose proof (walk_shape m cur seg x) as S end;
       rewrite H in S; simpl in S.
  all: split; [by apply (serves_shape cur)|].
  - simpl in H. by rewrite (assign_last_get _ _ _ _ H).
  - simpl in H. destruct (_ && _) eqn:G; [discriminate|].
    destruct (read_slot cur seg) as [child| |] eqn:R; try discriminate.
    destruct (is_nullish child) eqn:Nl.
    + destruct (write_slot cur seg _) as [cur1| |] eqn:W; try discriminate.
      destruct (walk _ next more' x) as [r child'] eqn:Wk. injection H as -> <-.
      assert (is_container child' = true) as Hc'.
      { apply container_shape.
        pose proof (walk_shape more' (fresh_container next) next x) as S'.
        rewrite Wk in S'. simpl in S'. rewrite S'.
        apply container_shape, fresh_container_is. }
      rewrite (step_after_write _ _ _ _ _ W Hc'). by apply (IH _ _ _ _ Wk).
    + destruct (negb (typeof_object child)) eqn:Ty; [discriminate|].
      destruct (walk child next more' x) as [r child'] eqn:Wk. injection H as -> <-.
      assert (is_container child = true) as Hc.
      { destruct child as [| | | | | | |h]; try discriminate; try reflexivity.
        exfalso. apply (walk_host h next more' x). by rewrite Wk. }
      assert (is_container child' = true) as Hc'.
      { apply container_shape. pose proof (walk_shape more' child next x) as S'.
        rewrite Wk in S'. simpl in S'. rewrite S'. by apply container_shape. }
      rewrite (step_after_descend _ _ _ _ G R Hc Hc'). by apply (IH _ _ _ _ Wk).
Qed.

End Addressing.

(** ** Where the first pass stops *)

Lemma scan_index_not_stop input rest : scan_index input <> ScanStop rest.
Proof.
  unfold scan_index. destruct (span is_digit input) as [ds r].
  destruct (eatWs r); [discriminate|]. destruct (_ =? _); [|discriminate].
  destruct ds; [discriminate|]. destruct (_ <=? _); discriminate.
Qed.

Lemma scan_quoted_not_stop q input rest : scan_quoted q input <> ScanStop rest.
Proof.
  unfold scan_quoted. destruct (span _ input) as [s [|c r]]; [discriminate|].
  destruct (eatWs r); [discriminate|]. destruct (_ =? _); discriminate.
Qed.

(** The loop breaks only at the end of the input or on a character that
    starts no segment and is no white space. *)
Lemma scan_stop_unrecognized input c tail :
  scan_segment input = ScanStop (c :: tail) ->
  (c =? DOT) = false /\ (c =? LBRACKET) = false /\ is_ws c = false.
Proof.
  unfold scan_segment. destruct (eatWs input) as [|c0 r]; [discriminate|].
  destruct (c0 =? DOT) eqn:D.
  { destruct (span is_keychar (eatWs r)) as [[|] ?]; discriminate. }
  destruct (c0 =? LBRACKET) eqn:L.
  { destruct (eatWs r) as [|q r1]; [intros H; by apply scan_index_not_stop in H|].
    destruct (_ || _); intros H;
      [by apply scan_quoted_not_stop in H|by apply scan_index_not_stop in H]. }
  destruct (is_ws c0) eqn:W; [discriminate|]. by intros [= <- <-].
Qed.

Lemma tokenize_unread input : forall acc segs c tail,
  tokenize input acc = Tokens segs (c :: tail) ->
  (c =? DOT) = false /\ (c =? LBRACKET) = false /\ is_ws c = false.
Proof.
  induction input as [input IH] using shorter_ind. intros acc segs c tail.
  rewrite tokenize_body. destruct input as [|c0 input']; [discriminate|].
  destruct (scan_segment (c0 :: input')) as [seg rest|rest|rest| |] eqn:E;
    try discriminate.
  - apply scan_segment_length in E. by apply IH.
  - apply scan_segment_skip_length in E. by apply IH.
  - intros [= <- ->]. by apply scan_stop_unrecognized in E.
Qed.

(** A quote after a backslash closes the key like any other quote. *)
Lemma scan_escaped_quote w1 w2 q key tail :
  blank w1 -> blank w2 -> q = DQUOTE \/ q = SQUOTE ->
  Forall (fun c => negb (c =? q) = true) key ->
  scan_segment (w1 ++ LBRACKET :: w2 ++ q :: key ++ BACKSLASH :: q :: tail) =
  match eatWs tail with
  | c :: rest =>
      if c =? RBRACKET then ScanSeg (SKey (key ++ [BACKSLASH])) rest else ScanError
  | [] => ScanError
  end.
Proof.
  intros Hw1 Hw2 Hq Hkey.
  rewrite scan_segment_blank by done. unfold scan_segment. simpl.
  rewrite eatWs_blank_stops; [|done|by destruct Hq as [-> | ->]].
  replace ((q =? DQUOTE) || (q =? SQUOTE)) with true
    by (destruct Hq as [-> | ->]; reflexivity).
  unfold scan_quoted.
  change (key ++ BACKSLASH :: q :: tail) with (key ++ [BACKSLASH] ++ q :: tail).
  rewrite app_assoc, span_app.
  - reflexivity.
  - apply Forall_app. split; [done|]. constructor; [|done].
    by destruct Hq as [-> | ->].
  - simpl. by rewrite N.eqb_refl.
Qed.

Lemma tokenize_pieces_scanned ps acc k :
  Forall (fun p => token_of p <> None) ps ->
  exists acc', tokenize_pieces (map token_of ps) acc k = k acc'.
Proof.
  revert acc. induction ps as [|p ps IH]; intros acc Hps; simpl; [eauto|].
  inversion Hps as [|? ? Hp Hps']; subst.
  destruct (token_of p); [by apply IH|done].
Qed.

Section Absent.
Context {host : Host}.

(** The getter returned [undefined], or the call left what is modelled. *)
Definition absent (r : outcome value) : Prop :=
  r = Returns VUndefined \/ r = Beyond.

Lemma get_step_absent cur seg result :
  get_step cur seg = Finish result -> absent result \/ result = Throws TypeError.
Proof.
  intros [-> | [-> | [-> _]]]%get_step_finish;
    [left; by left|left; by right|by right].
Qed.

(** When the getter returns along scanned pieces, it returns [undefined]
    once the scan fails after them. *)
Lemma get_pieces_undefined toks : forall cur v,
  get_pieces cur toks Returns = Returns v ->
  get_pieces cur toks (fun _ => Returns VUndefined) = Returns VUndefined.
Proof.
  induction toks as [|[seg|] toks IH]; intros cur v; simpl; [done| |discriminate].
  destruct (get_step cur seg) eqn:S; [by apply IH|].
  intros ->. by apply get_step_returns in S as ->.
Qed.

End Absent.

Lemma tokenize_pieces_ext toks k k' : forall acc,
  (forall acc', k acc' = k' acc') ->
  tokenize_pieces toks acc k = tokenize_pieces toks acc k'.
Proof.
  induction toks as [|[seg|] toks IH]; intros acc Hk; simpl; auto.
Qed.

Lemma get_pieces_ext `{Host} toks k k' : forall cur,
  (forall cur', k cur' = k' cur') ->
  get_pieces cur toks k = get_pieces cur toks k'.
Proof.
  induction toks as [|[seg|] toks IH]; intros cur Hk; simpl; auto.
  destruct (get_step cur seg); auto.
Qed.


(** * More about the scanner and the second pass *)

(** ** The other tests of the repository *)

Section MoreTests.
Context {host : Host}.

(** A path with a key in double quotes: [$["key"]]. *)
Definition double_quoted (key : string) : jsstring :=
  DOLLAR :: LBRACKET :: DQUOTE :: js key ++ [DQUOTE; RBRACKET].

Example get_dot_path_depth_1 :
  getTinyJsonPath (object_of [("a", VNum 1)]) (js "$.a") = Returns (VNum 1).
Proof. vm_compute. reflexivity. Qed.

Example get_array_of_arrays :
  getTinyJsonPath (array_of [array_of [VNum 10; VNum 20]; array_of [VNum 30; VNum 40]])
                  (js "$[1][0]") = Returns (VNum 30).
Proof. vm_compute. reflexivity. Qed.

Example get_mixed_object_array_depth :
  getTinyJsonPath (object_of [("a", array_of [object_of [("b", VNum 7)];
                                              object_of [("b", VNum 9)]])])
                  (js "$.a[1].b") = Returns (VNum 9).
Proof. vm_compute. reflexivity. Qed.

Example get_quoted_key :
  getTinyJsonPath (object_of [("weird key", VNum 123)]) (double_quoted "weird key")
    = Returns (VNum 123).
Proof. vm_compute. reflexivity. Qed.

Example get_dash_in_dot_segment :
  getTinyJsonPath (object_of [("some-key", VNum 88)]) (js "$.some-key") = Returns (VNum 88).
Proof. vm_compute. reflexivity. Qed.

Example get_non_existent_path :
  getTinyJsonPath (object_of [("a", object_of [])]) (js "$.a.b.c") = Returns VUndefined.
Proof. vm_compute. reflexivity. Qed.

Example get_array_of_arrays_deep :
  getTinyJsonPath
    (array_of [array_of [VNum 0; array_of [VNum 1; VNum 2; VNum 3]];
               array_of [VNum 10; array_of [VNum 20; VNum 30;
                                            array_of [VNum 40; VNum 50]]]])
    (js "$[1][1][2][1]") = Returns (VNum 50).
Proof. vm_compute. reflexivity. Qed.

Example get_props_then_index :
  getTinyJsonPath
    (object_of [("a", object_of [("b", object_of [("c", array_of [VNum 9; VNum 8; VNum 7])])])])
    (js "$.a.b.c[2]") = Returns (VNum 7).
Proof. vm_compute. reflexivity. Qed.

Example set_create_nested_objects :
  setTinyJsonPath (object_of []) (js "$.a.b.c") (VNum 42)
    = (Returns true, object_of [("a", object_of [("b", object_of [("c", VNum 42)])])]).
Proof. vm_compute. reflexivity. Qed.

Example set_quoted_key_at_root :
  setTinyJsonPath (object_of []) (double_quoted "weird key") (VNum 7)
    = (Returns true, object_of [("weird key", VNum 7)]).
Proof. vm_compute. reflexivity. Qed.

Example set_dash_key_in_dot_segment :
  setTinyJsonPath (object_of []) (js "$.some-key.here") (VNum 1)
    = (Returns true, object_of [("some-key", object_of [("here", VNum 1)])]).
Proof. vm_compute. reflexivity. Qed.

Example set_missing_root_marker_fails :
  setTinyJsonPath (object_of []) (js "a.b") (VNum 1) = (Returns false, object_of []).
Proof. vm_compute. reflexivity. Qed.

(** The test passes no value: the value is [undefined]. *)
Example set_empty_key_after_dot_fails :
  setTinyJsonPath (object_of []) (js "$.") VUndefined = (Returns false, object_of []).
Proof. vm_compute. reflexivity. Qed.

Example roundtrip_object_chain :
  let r := setTinyJsonPath (object_of []) (js "$.x.y.z") (VNum 77) in
  fst r = Returns true /\ getTinyJsonPath (snd r) (js "$.x.y.z") = Returns (VNum 77).
Proof. vm_compute. split; reflexivity. Qed.

Example roundtrip_array_inside_object :
  let r := setTinyJsonPath (object_of []) (js "$.list[1].name") (text "Joe") in
  fst r = Returns true /\ getTinyJsonPath (snd r) (js "$.list[1].name") = Returns (text "Joe").
Proof. vm_compute. split; reflexivity. Qed.

Example roundtrip_quoted_root_key :
  let r := setTinyJsonPath (object_of []) (double_quoted " root key ") (VNum 5) in
  fst r = Returns true /\
  getTinyJsonPath (snd r) (double_quoted " root key ") = Returns (VNum 5).
Proof. vm_compute. split; reflexivity. Qed.

Example roundtrip_dashed_keys :
  let r := setTinyJsonPath (object_of []) (js "$.k-1.k-2") (text "ok") in
  fst r = Returns true /\
  getTinyJsonPath (snd r) (js "$.k-1.k-2") = Returns (text "ok") /\
  getTinyJsonPath (snd r)
    (double_quoted "k-1" ++ LBRACKET :: DQUOTE :: js "k-2" ++ [DQUOTE; RBRACKET])
    = Returns (text "ok").
Proof. vm_compute. repeat split; reflexivity. Qed.

Example set_array_in_array_from_empty_object :
  let r := setTinyJsonPath (object_of []) (js "$.a[1][2]") (VNum 99) in
  fst r = Returns true /\ getTinyJsonPath (snd r) (js "$.a[1][2]") = Returns (VNum 99).
Proof. vm_compute. split; reflexivity. Qed.

Example set_object_inside_array_from_empty_array :
  let r := setTinyJsonPath (array_of []) (js "$[0].user.name") (text "Zoe") in
  fst r = Returns true /\
  getTinyJsonPath (snd r) (js "$[0].user.name") = Returns (text "Zoe").
Proof. vm_compute. split; reflexivity. Qed.

Example set_object_inside_array_from_empty_object :
  let r := setTinyJsonPath (object_of []) (js "$.list[0].user.name") (text "Yan") in
  fst r = Returns true /\
  getTinyJsonPath (snd r) (js "$.list[0].user.name") = Returns (text "Yan").
Proof. vm_compute. split; reflexivity. Qed.

End MoreTests.

(** ** The scanner accepts the grammar and nothing else *)

(** Lists that differ in the nesting of [++] and [::]. *)
Ltac reassoc := repeat (progress (rewrite <- ?app_assoc; simpl)).

Lemma eatWs_split input :
  exists w, input = w ++ eatWs input /\ blank w /\ stops is_ws (eatWs input).
Proof.
  induction input as [|c input (w & E & Hw & Hs)]; simpl.
  - exists []. repeat split; constructor.
  - destruct (is_ws c) eqn:W.
    + exists (c :: w). simpl. rewrite <- E. repeat split; [by constructor|done].
    + exists []. repeat split; [constructor|done].
Qed.

Lemma span_split p input taken rest :
  span p input = (taken, rest) ->
  input = taken ++ rest /\ Forall (fun c => p c = true) taken /\ stops p rest.
Proof.
  revert taken rest. induction input as [|c input IH]; intros taken rest; simpl.
  - intros [= <- <-]. repeat split; constructor.
  - destruct (p c) eqn:P.
    + destruct (span p input) as [t r]. intros [= <- <-].
      destruct (IH t r eq_refl) as (-> & Ht & Hr). repeat split; [by constructor|done].
    + intros [= <- <-]. repeat split; [constructor|done].
Qed.

(** After [eatWs] the character under the cursor is no white space: the
    [/\s/] branch that ends the loop body is never taken. *)
Lemma scan_segment_never_skips input rest : scan_segment input <> ScanSkip rest.
Proof.
  unfold scan_segment. destruct (eatWs_split input) as (w & _ & _ & Hs).
  destruct (eatWs input) as [|c r]; [discriminate|]. simpl in Hs.
  destruct (c =? DOT).
  { destruct (span is_keychar (eatWs r)) as [[|] ?]; discriminate. }
  destruct (c =? LBRACKET).
  { unfold scan_index, scan_quoted. destruct (eatWs r) as [|q r1].
    - simpl. discriminate.
    - destruct (_ || _).
      + destruct (span _ r1) as [s0 [|? r2]]; [discriminate|].
        destruct (eatWs r2); [discriminate|]. destruct (_ =? RBRACKET); discriminate.
      + destruct (span is_digit (q :: r1)) as [ds r2].
        destruct (eatWs r2); [discriminate|]. destruct (_ =? RBRACKET); [|discriminate].
        destruct ds; [discriminate|]. destruct (_ <=? _); discriminate. }
  rewrite Hs. discriminate.
Qed.

Lemma scan_index_sound input seg rest :
  scan_index input = ScanSeg seg rest ->
  exists ds w3,
    input = ds ++ w3 ++ RBRACKET :: rest /\ ds <> [] /\
    Forall (fun c => is_digit c = true) ds /\ blank w3 /\
    digits_value ds <= max_exact /\ seg = SIndex (digits_value ds).
Proof.
  unfold scan_index. destruct (span is_digit input) as [ds r] eqn:Hs.
  apply span_split in Hs as (-> & Hds & _).
  destruct (eatWs_split r) as (w3 & E & Hw & _).
  destruct (eatWs r) as [|c r']; [discriminate|].
  destruct (c =? RBRACKET) eqn:C; [|discriminate]. apply N.eqb_eq in C as ->.
  destruct ds as [|d ds]; [discriminate|].
  destruct (_ <=? _) eqn:B; [|discriminate]. intros [= <- <-].
  exists (d :: ds), w3. rewrite E at 1. repeat split; try done. by apply N.leb_le.
Qed.

Lemma scan_quoted_sound q input seg rest :
  scan_quoted q input = ScanSeg seg rest ->
  exists key w3,
    input = key ++ q :: w3 ++ RBRACKET :: rest /\
    Forall (fun c => negb (c =? q) = true) key /\ blank w3 /\ seg = SKey key.
Proof.
  unfold scan_quoted. destruct (span _ input) as [key r] eqn:Hs.
  apply span_split in Hs as (-> & Hkey & Hr).
  destruct r as [|c0 r1]; [discriminate|]. simpl in Hr.
  apply negb_false_iff, N.eqb_eq in Hr as ->.
  destruct (eatWs_split r1) as (w3 & E & Hw & _).
  destruct (eatWs r1) as [|c r2]; [discriminate|].
  destruct (c =? RBRACKET) eqn:C; [|discriminate]. apply N.eqb_eq in C as ->.
  intros [= <- <-]. exists key, w3. rewrite E at 1. done.
Qed.

(** A turn of the loop that yields a segment has read one of the three
    forms of the grammar. *)
Lemma scan_segment_sound input seg rest :
  scan_segment input = ScanSeg seg rest ->
  exists p, input = render_piece p ++ rest /\ well_formed p /\ token_of p = Some seg.
Proof.
  unfold scan_segment. destruct (eatWs_split input) as (w1 & E1 & Hw1 & _).
  destruct (eatWs input) as [|c r]; [discriminate|].
  destruct (c =? DOT) eqn:D.
  { apply N.eqb_eq in D as ->.
    destruct (eatWs_split r) as (w2 & E2 & Hw2 & _).
    destruct (span is_keychar (eatWs r)) as [key r'] eqn:Hs.
    apply span_split in Hs as (E3 & Hkey & _).
    destruct key as [|k key]; [discriminate|]. intros [= <- <-].
    exists (PDot w1 w2 (k :: key)). simpl. repeat split; try done.
    rewrite E1 at 1. rewrite E2 at 1. rewrite E3. by reassoc. }
  destruct (c =? LBRACKET) eqn:L; [|destruct (is_ws c); discriminate].
  apply N.eqb_eq in L as ->.
  destruct (eatWs_split r) as (w2 & E2 & Hw2 & _).
  assert (forall r0, eatWs r = r0 -> scan_index r0 = ScanSeg seg rest ->
          exists p, input = render_piece p ++ rest /\ well_formed p /\ token_of p = Some seg)
    as Hindex.
  { intros r0 E0 (ds & w3 & -> & Hne & Hds & Hw3 & Hmax & ->)%scan_index_sound.
    exists (PIndex w1 w2 ds w3). simpl. apply N.leb_le in Hmax as ->.
    repeat split; try done. rewrite E1 at 1. rewrite E2 at 1. rewrite E0.
    by reassoc. }
  destruct (eatWs r) as [|q r1] eqn:Er; [by apply Hindex|].
  destruct ((q =? DQUOTE) || (q =? SQUOTE)) eqn:Q; [|by apply Hindex].
  assert (q = DQUOTE \/ q = SQUOTE) as Hq
    by (apply orb_true_iff in Q as [->%N.eqb_eq | ->%N.eqb_eq]; auto).
  intros (key & w3 & -> & Hkey & Hw3 & ->)%scan_quoted_sound.
  exists (PQuoted w1 w2 q key w3). simpl. repeat split; try done.
  rewrite E1 at 1. rewrite E2 at 1. by reassoc.
Qed.

Lemma tokenize_sound input : forall segs unread,
  tokenize input [] = Tokens segs unread ->
  exists ps w,
    input = render ps ++ w ++ unread /\ Forall well_formed ps /\ blank w /\
    map token_of ps = map Some segs.
Proof.
  induction input as [input IH] using shorter_ind. intros segs unread.
  rewrite tokenize_body. destruct input as [|c input'].
  { intros [= <- <-]. exists [], []. repeat split; constructor. }
  destruct (scan_segment (c :: input')) as [seg rest|rest|rest| |] eqn:E;
    try discriminate.
  - rewrite tokenize_acc.
    destruct (tokenize rest []) as [segs' unread'| |] eqn:T; try discriminate.
    simpl. intros [= <- <-].
    destruct (scan_segment_sound _ _ _ E) as (p & Ep & Hp & Tp).
    apply scan_segment_length in E.
    destruct (IH rest E _ _ T) as (ps & w & -> & Hps & Hw & Tps).
    exists (p :: ps), w. rewrite render_cons. repeat split; try done.
    + by constructor.
    + simpl. by rewrite Tp, Tps.
  - by apply scan_segment_never_skips in E.
  - intros [= <- <-]. unfold scan_segment in E.
    destruct (eatWs_split (c :: input')) as (w & Ew & Hw & _).
    assert (eatWs (c :: input') = rest) as <-.
    { destruct (eatWs (c :: input')) as [|c0 r]; [by injection E as <-|].
      destruct (c0 =? DOT).
      { destruct (span is_keychar (eatWs r)) as [[|] ?]; discriminate. }
      destruct (c0 =? LBRACKET).
      { destruct (eatWs r) as [|q r1]; [by apply scan_index_not_stop in E|].
        destruct (_ || _);
          [by apply scan_quoted_not_stop in E|by apply scan_index_not_stop in E]. }
      destruct (is_ws c0); [discriminate|]. by injection E as <-. }
    exists [], w. repeat split; done.
Qed.

Lemma keychar_not_quote c : is_keychar c = true -> c <> DQUOTE /\ c <> SQUOTE.
Proof. intros H%is_keychar_range. unfold DQUOTE, SQUOTE. lia. Qed.

Lemma well_formed_key p key :
  well_formed p -> token_of p = Some (SKey key) ->
  ~ (DQUOTE ∈ key /\ SQUOTE ∈ key).
Proof.
  destruct p as [w1 w2 k|w1 w2 q k w3|w1 w2 ds w3]; simpl.
  - intros (_ & _ & _ & Hk) [= ->] [Hd _].
    rewrite Forall_forall in Hk. by destruct (keychar_not_quote _ (Hk _ Hd)).
  - intros (_ & _ & _ & Hq & Hk) [= ->] [Hd Hs].
    rewrite Forall_forall in Hk.
    destruct Hq as [-> | ->]; [specialize (Hk _ Hd)|specialize (Hk _ Hs)];
      by rewrite N.eqb_refl in Hk.
  - destruct (_ <=? _); discriminate.
Qed.

(** The characters a path can go on with: those of a key, white space,
    a dot, an opening bracket.  The scan ends in front of any other. *)
Definition continues (c : cu) : bool :=
  is_keychar c || is_ws c || (c =? DOT) || (c =? LBRACKET).

Lemma tokenize_stop acc w unread :
  blank w -> stops continues unread ->
  tokenize (w ++ unread) acc = Tokens acc unread.
Proof.
  intros Hw Hu. rewrite tokenize_body.
  destruct (w ++ unread) as [|c0 r0] eqn:E0.
  { apply app_eq_nil in E0 as [_ ->]. reflexivity. }
  rewrite <- E0, scan_segment_blank by done. unfold scan_segment.
  destruct unread as [|c r]; [reflexivity|]. simpl in Hu.
  unfold continues in Hu. rewrite !orb_false_iff in Hu. destruct Hu as [[[K W] D] L].
  rewrite (eatWs_stops (c :: r)) by exact W. by rewrite D, L, W.
Qed.

Lemma tokenize_pieces_some segs : forall acc k,
  tokenize_pieces (map Some segs) acc k = k (acc ++ segs).
Proof.
  induction segs as [|seg segs IH]; intros acc k; simpl; [by rewrite app_nil_r|].
  by rewrite IH, <- app_assoc.
Qed.

Lemma stops_keychar_unread w unread :
  blank w -> stops continues unread ->
  stops is_keychar (w ++ unread).
Proof.
  intros [|c w' Hc _] Hu; simpl; [|by apply ws_not_keychar].
  destruct unread as [|c r]; [done|]. simpl in *.
  unfold continues in Hu. rewrite !orb_false_iff in Hu. tauto.
Qed.

Lemma tokenize_complete ps w unread segs :
  Forall well_formed ps -> blank w ->
  stops continues unread ->
  map token_of ps = map Some segs ->
  tokenize (render ps ++ w ++ unread) [] = Tokens segs unread.
Proof.
  intros Hps Hw Hu E.
  rewrite tokenize_render by auto using stops_keychar_unread.
  rewrite E, tokenize_pieces_some. simpl. by apply tokenize_stop.
Qed.

(** ** The getter and the first pass of the setter *)

Lemma prepend_rejected acc t :
  prepend acc t = TokError \/ prepend acc t = TokBeyond ->
  t = TokError \/ t = TokBeyond.
Proof. destruct t; simpl; intros [?|?]; try discriminate; auto. Qed.

Lemma tokenize_blank_app w input acc :
  blank w -> tokenize (w ++ input) acc = tokenize input acc.
Proof.
  intros Hw. destruct w as [|c w]; [done|].
  rewrite (tokenize_body (_ ++ _)). simpl.
  change (c :: w ++ input) with ((c :: w) ++ input).
  rewrite scan_segment_blank by done. rewrite (tokenize_body input).
  destruct input as [|c0 r0]; [|done]. reflexivity.
Qed.

(** Input that yields a segment starts with white space, a dot or an
    opening bracket. *)
Lemma tokenize_starts input seg more unread :
  tokenize input [] = Tokens (seg :: more) unread -> stops is_keychar input.
Proof.
  intros (ps & w & -> & Hps & _ & E)%tokenize_sound.
  destruct ps as [|p ps]; [discriminate E|].
  inversion Hps as [|? ? Hp _]; subst.
  rewrite render_cons. by apply render_piece_stops.
Qed.

Lemma stops_app (p : N -> bool) input input' :
  input <> [] -> stops p input -> stops p (input ++ input').
Proof. by destruct input. Qed.

(** A path that is scanned to its end, followed by more input that no
    key of the path can absorb. *)
Lemma tokenize_app rest rest' segs acc :
  tokenize rest [] = Tokens segs [] -> stops is_keychar rest' ->
  tokenize (rest ++ rest') acc = tokenize rest' (acc ++ segs).
Proof.
  intros T Hs. destruct (tokenize_sound _ _ _ T) as (ps & w & -> & Hps & Hw & E).
  rewrite app_nil_r, <- app_assoc.
  rewrite tokenize_render; [|done|by apply stops_blank_app; auto using ws_not_keychar].
  rewrite E, tokenize_pieces_some. by apply tokenize_blank_app.
Qed.

(** Two paths one after the other, the second with a segment. *)
Lemma tokenize_join rest rest' segs seg more unread :
  tokenize rest [] = Tokens segs [] ->
  tokenize rest' [] = Tokens (seg :: more) unread ->
  tokenize (rest ++ rest') [] = Tokens (segs ++ seg :: more) unread.
Proof.
  intros T T'.
  by rewrite (tokenize_app _ _ _ [] T (tokenize_starts _ _ _ _ T')), tokenize_acc, T'.
Qed.

Section Lookup.
Context {host : Host}.

Lemma get_loop_rejected input : forall cur,
  tokenize input [] = TokError \/ tokenize input [] = TokBeyond ->
  absent (get_loop input cur) \/ get_loop input cur = Throws TypeError.
Proof.
  induction input as [input IH] using shorter_ind. intros cur.
  rewrite get_loop_body, tokenize_body.
  destruct input as [|c input']; [intros [?|?]; discriminate|].
  destruct (scan_segment (c :: input')) as [seg rest|rest|rest| |] eqn:E.
  - apply scan_segment_length in E. rewrite tokenize_acc.
    intros H%prepend_rejected.
    destruct (get_step cur seg) eqn:S; [by apply IH|by apply get_step_absent in S].
  - apply scan_segment_skip_length in E. by apply IH.
  - intros [?|?]; discriminate.
  - left. by left.
  - left. by right.
Qed.

(** On a path that the first pass rejects for a malformed segment the
    getter performs the steps of the segments written before it and then
    returns [undefined]. *)
Lemma get_loop_malformed input :
  tokenize input [] = TokError ->
  exists ps segs bad,
    input = render ps ++ bad /\ Forall well_formed ps /\
    map token_of ps = map Some segs /\ scan_segment bad = ScanError /\
    forall cur,
      get_loop input cur =
      match get_segs cur segs with
      | Returns _ => Returns VUndefined
      | o => o
      end.
Proof.
  induction input as [input IH] using shorter_ind.
  rewrite tokenize_body. destruct input as [|c input']; [discriminate|].
  destruct (scan_segment (c :: input')) as [seg rest|rest|rest| |] eqn:E;
    try discriminate.
  - rewrite tokenize_acc. intros T.
    assert (tokenize rest [] = TokError) as T'
      by (destruct (tokenize rest []); try discriminate; done).
    destruct (scan_segment_sound _ _ _ E) as (p & Ep & Hp & Tp).
    destruct (IH rest (scan_segment_length _ _ _ E) T')
      as (ps & segs & bad & -> & Hps & Tps & Eb & Hg).
    exists (p :: ps), (seg :: segs), bad. rewrite render_cons.
    split; [done|]. split; [by constructor|]. split; [simpl; by rewrite Tp, Tps|].
    split; [done|]. intros cur. rewrite get_loop_body, E. simpl.
    destruct (get_step cur seg) as [child|r] eqn:S; [apply Hg|].
    by apply get_step_finish in S as [-> | [-> | [-> _]]].
  - by apply scan_segment_never_skips in E.
  - intros _. exists [], [], (c :: input'). repeat split; try done.
    intros cur. by rewrite get_loop_body, E.
Qed.

Lemma get_loop_blank_app w input cur :
  blank w -> get_loop (w ++ input) cur = get_loop input cur.
Proof.
  intros Hw. destruct w as [|c w]; [done|].
  rewrite (get_loop_body (_ ++ _)). simpl.
  change (c :: w ++ input) with ((c :: w) ++ input).
  rewrite scan_segment_blank by done. rewrite (get_loop_body input).
  destruct input as [|c0 r0]; [|done]. reflexivity.
Qed.

Lemma get_pieces_some segs k : forall cur,
  (k VUndefined = Returns VUndefined) ->
  get_pieces cur (map Some segs) k =
  match get_segs cur segs with
  | Returns v => k v
  | o => o
  end.
Proof.
  induction segs as [|seg segs IH]; intros cur Hk; simpl; [done|].
  destruct (get_step cur seg) as [child|r] eqn:S; [by apply IH|].
  apply get_step_absent in S as [[-> | ->] | ->]; [|done..]. by rewrite Hk.
Qed.

(** From [undefined] the getter returns [undefined], whatever the path,
    unless the scan leaves what is modelled. *)
Lemma get_loop_undefined input :
  tokenize input [] <> TokBeyond -> get_loop input VUndefined = Returns VUndefined.
Proof.
  induction input as [input IH] using shorter_ind.
  rewrite get_loop_body, tokenize_body.
  destruct input as [|c input']; [done|].
  destruct (scan_segment (c :: input')) as [seg rest|rest|rest| |] eqn:E; try done.
  - intros _. by rewrite get_step_nullish.
  - by apply scan_segment_never_skips in E.
Qed.

Lemma get_loop_app rest rest' segs cur :
  tokenize rest [] = Tokens segs [] -> stops is_keychar rest' ->
  tokenize rest' [] <> TokBeyond ->
  get_loop (rest ++ rest') cur =
  match get_loop rest cur with
  | Returns v => get_loop rest' v
  | o => o
  end.
Proof.
  intros T Hs Hb. rewrite (get_loop_tokens _ _ _ _ T).
  destruct (tokenize_sound _ _ _ T) as (ps & w & -> & Hps & Hw & E).
  rewrite app_nil_r, <- app_assoc.
  rewrite get_loop_render; [|done|by apply stops_blank_app; auto using ws_not_keychar].
  rewrite E, get_pieces_some.
  - destruct (get_segs cur segs); try done. by apply get_loop_blank_app.
  - rewrite get_loop_blank_app by done. by apply get_loop_undefined.
Qed.

(** The getter throws only by a step from a built-in function to its
    [caller] or [arguments]. *)
Lemma get_segs_throws segs : forall cur e,
  get_segs cur segs = Throws e ->
  e = TypeError /\
  exists pre key post,
    segs = pre ++ SKey key :: post /\ key ∈ restricted /\
    get_segs cur pre = Returns (VHost HFunction).
Proof.
  induction segs as [|seg segs IH]; intros cur e; simpl; [discriminate|].
  destruct (get_step cur seg) as [child|r] eqn:S.
  - intros (-> & pre & key & post & -> & Hk & Hg)%IH. split; [done|].
    exists (seg :: pre), key, post. simpl. by rewrite S.
  - intros ->.
    apply get_step_finish in S as [? | [? | ([= ->] & -> & key & -> & Hk)]];
      try discriminate.
    split; [done|]. by exists [], key, segs.
Qed.

End Lookup.

(** ** Assigning twice *)

Lemma store_elem_twice elems i x y :
  store_elem (store_elem elems i x) i y = store_elem elems i y.
Proof.
  unfold store_elem at 1. rewrite decide_True by (rewrite store_elem_length; lia).
  unfold store_elem. case_decide as Hi.
  - apply list_insert_insert_eq.
  - rewrite insert_app_r_alt by lia.
    rewrite insert_app_r_alt by (rewrite length_replicate; lia).
    rewrite length_replicate.
    by replace (i - length elems - (i - length elems))%nat with 0%nat by lia.
Qed.

Lemma store_prop_twice props key x y props1 :
  store_prop props key x = Some props1 ->
  store_prop props key y = Some (<[key := y]> props) /\
  store_prop props1 key y = Some (<[key := y]> props).
Proof.
  unfold store_prop. case_decide as P.
  - destruct (props !! key) eqn:E; [|discriminate]. intros [= <-].
    by rewrite lookup_insert_eq, insert_insert_eq.
  - intros [= <-]. by rewrite insert_insert_eq.
Qed.

Section Twice.
Context {host : Host}.

Lemma set_prop_twice cur key x y cur1 :
  set_prop cur key x = Stored cur1 ->
  exists cur2, set_prop cur key y = Stored cur2 /\ set_prop cur1 key y = Stored cur2.
Proof.
  destruct cur; simpl; try discriminate; try (case_decide; discriminate).
  - destruct (store_prop props key x) as [props1|] eqn:S; [|discriminate].
    intros [= <-]. simpl. destruct (store_prop_twice _ _ _ y _ S) as [-> ->]. eauto.
  - destruct (canonical_index key) as [i|] eqn:C.
    + intros [= <-]. simpl. rewrite C, store_elem_twice. eauto.
    + case_decide as L; [discriminate|].
      destruct (store_prop props key x) as [props1|] eqn:S; [|discriminate].
      intros [= <-]. simpl. rewrite C. rewrite decide_False by done.
      destruct (store_prop_twice _ _ _ y _ S) as [-> ->]. eauto.
Qed.

Lemma set_index_twice cur idx x y cur1 :
  set_index cur idx x = Stored cur1 ->
  exists cur2, set_index cur idx y = Stored cur2 /\ set_index cur1 idx y = Stored cur2.
Proof.
  destruct cur; simpl; try discriminate.
  destruct (idx <? max_length) eqn:B; [|discriminate].
  intros [= <-]. simpl. rewrite B, store_elem_twice. eauto.
Qed.

Lemma write_back_twice parent seg a b :
  is_container a = true -> is_container b = true ->
  write_back (write_back parent seg a) seg b = write_back parent seg b.
Proof.
  intros Ha Hb.
  destruct a; try discriminate; destruct b; try discriminate;
    destruct parent; try reflexivity; destruct seg as [key|idx]; try reflexivity; simpl.
  all: try (by rewrite insert_insert_eq).
  all: try (by rewrite list_insert_insert_eq).
  all: destruct (canonical_index key) eqn:C; simpl; rewrite ?C;
       by rewrite ?insert_insert_eq, ?list_insert_insert_eq.
Qed.

Lemma assign_last_twice cur last x y cur1 :
  assign_last cur last x = (Returns true, cur1) ->
  exists cur2,
    assign_last cur last y = (Returns true, cur2) /\
    assign_last cur1 last y = (Returns true, cur2).
Proof.
  destruct last as [key|idx]; simpl.
  - destruct (_ || _); [discriminate|].
    destruct (set_prop cur key x) as [c| |] eqn:W; simpl; try discriminate.
    intros [= <-].
    destruct (set_prop_twice _ _ _ y _ W) as (cur2 & -> & W2).
    apply set_prop_shape in W as [Hc _].
    exists cur2. split; [done|]. rewrite W2. by destruct c.
  - destruct (negb (isArray cur)); [discriminate|].
    destruct cur as [| | | | | |elems props|]; try discriminate.
    destruct (N.of_nat (length elems) <=? idx) eqn:G.
    + destruct (max_length <? idx + 1) eqn:M; [discriminate|].
      simpl. destruct (idx <? max_length) eqn:B; simpl; [|discriminate].
      intros [= <-]. eexists. split; [reflexivity|]. simpl.
      replace (N.of_nat (length (store_elem _ _ x)) <=? idx) with false.
      * simpl. by rewrite B, store_elem_twice.
      * symmetry. apply N.leb_gt. rewrite store_elem_length. lia.
    + simpl. destruct (idx <? max_length) eqn:B; simpl; [|discriminate].
      intros [= <-]. eexists. split; [reflexivity|]. simpl.
      replace (N.of_nat (length (store_elem _ _ x)) <=? idx) with false.
      * simpl. by rewrite B, store_elem_twice.
      * symmetry. apply N.leb_gt. rewrite store_elem_length. lia.
Qed.

Lemma walk_container more cur seg x :
  is_container cur = true -> is_container (snd (walk cur seg more x)) = true.
Proof.
  intros H. apply container_shape. rewrite walk_shape. by apply container_shape.
Qed.

Lemma container_typeof x :
  is_container x = true -> is_nullish x = false /\ typeof_object x = true.
Proof. by destruct x. Qed.

(** A second assignment along the same segments overwrites the first. *)
Lemma walk_twice more : forall cur seg x y cur1,
  walk cur seg more x = (Returns true, cur1) ->
  exists cur2,
    walk cur seg more y = (Returns true, cur2) /\
    walk cur1 seg more y = (Returns true, cur2).
Proof.
  induction more as [|next more' IH]; intros cur seg x y cur1; simpl.
  - apply assign_last_twice.
  - destruct (is_index seg && negb (isArray cur)) eqn:G; [discriminate|].
    destruct (read_slot cur seg) as [child| |] eqn:R; try discriminate.
    destruct (is_nullish child) eqn:Nl.
    + destruct (write_slot cur seg _) as [c1| |] eqn:W; try discriminate.
      destruct (walk _ next more' x) as [r child'] eqn:Wk. intros [= -> <-].
      destruct (IH _ _ _ y _ Wk) as (c2 & Wy & Wy').
      pose proof (walk_container more' _ next x (fresh_container_is next)) as Hc'.
      rewrite Wk in Hc'. simpl in Hc'.
      pose proof (walk_container more' _ next y (fresh_container_is next)) as Hc2.
      rewrite Wy in Hc2. simpl in Hc2.
      exists (write_back c1 seg c2). rewrite Wy. split; [done|].
      destruct (get_step_read _ _ _ (step_after_write _ _ _ _ _ W Hc')) as [-> ->].
      destruct (container_typeof _ Hc') as [-> ->]. simpl.
      rewrite Wy'. by rewrite write_back_twice.
    + destruct (negb (typeof_object child)) eqn:Ty; [discriminate|].
      destruct (walk child next more' x) as [r child'] eqn:Wk. intros [= -> <-].
      destruct (IH _ _ _ y _ Wk) as (c2 & Wy & Wy').
      assert (is_container child = true) as Hc.
      { destruct child as [| | | | | | |h]; try discriminate; try reflexivity.
        exfalso. apply (walk_host h next more' x). by rewrite Wk. }
      pose proof (walk_container more' _ next x Hc) as Hc'.
      rewrite Wk in Hc'. simpl in Hc'.
      pose proof (walk_container more' _ next y Hc) as Hc2.
      rewrite Wy in Hc2. simpl in Hc2.
      exists (write_back cur seg c2). rewrite Wy. split; [done|].
      destruct (get_step_read _ _ _ (step_after_descend _ _ _ _ G R Hc Hc')) as [-> ->].
      destruct (container_typeof _ Hc') as [-> ->]. simpl.
      rewrite Wy'. by rewrite write_back_twice.
Qed.

End Twice.

(** ** A call that does not assign *)

Section Unchanged.
Context {host : Host}.

Lemma assign_last_unchanged cur last x :
  fst (assign_last cur last x) <> Returns true -> snd (assign_last cur last x) = cur.
Proof.
  assert (forall w, fst (ended w cur) <> Returns true -> snd (ended w cur) = cur) as He
    by (by intros [| |]).
  destruct last as [key|idx]; simpl.
  - destruct (_ || _); [done|]. apply He.
  - destruct (negb (isArray cur)); [done|]. destruct cur; try done.
    destruct (_ <=? _); [destruct (_ <? _); [done|]|]; apply He.
Qed.

(** When the value that holds the last slot is there, a call that does
    not assign has changed nothing. *)
Lemma walk_unchanged pre : forall cur last x v,
  get_segs cur pre = Returns v -> is_nullish v = false ->
  fst (second_pass cur (pre ++ [last]) x) <> Returns true ->
  snd (second_pass cur (pre ++ [last]) x) = cur.
Proof.
  induction pre as [|s0 pre IH]; intros cur last x v; simpl.
  - intros _ _. apply assign_last_unchanged.
  - destruct (get_step cur s0) as [child|r] eqn:S.
    2:{ intros -> Nl. apply get_step_returns in S as ->; discriminate. }
    intros Hg Nl. apply get_step_read in S as [G R].
    specialize (IH child last x v Hg Nl).
    destruct (pre ++ [last]) as [|next more] eqn:E; [by destruct pre|].
    simpl in *. rewrite G, R.
    destruct (is_nullish child) eqn:Nc.
    { destruct pre as [|s1 pre]; simpl in Hg.
      - injection Hg as <-. congruence.
      - rewrite get_step_nullish in Hg by done. injection Hg as <-. discriminate. }
    destruct (typeof_object child) eqn:Ty; simpl; [|done].
    destruct (walk child next more x) as [r child'] eqn:Wk. simpl in *.
    intros Hr. rewrite (IH Hr). by apply write_back_same.
Qed.

End Unchanged.

(** ** The slots that an assignment leaves alone *)

(** Two segments that address different slots of [cur]: different
    segments, and two indexes when [cur] is an array (where a key can name
    an element, or the length). *)
Definition apart (cur : value) (a b : segment) : Prop :=
  a <> b /\ (shape_of cur = Sequence -> is_index a = true /\ is_index b = true).

(** What [cur[j]] reads from the element slots. *)
Definition element (elems : list (option value)) (j : nat) : value :=
  match elems !! j with
  | Some (Some x) => x
  | _ => VUndefined
  end.

(** [cur.length = i + 1; cur[i] = x] is [cur[i] = x] past the end. *)
Lemma store_elem_resize elems i x :
  (length elems <= i)%nat ->
  store_elem (resize (S i) None elems) i x = store_elem elems i x.
Proof.
  intros Hi. unfold store_elem.
  rewrite decide_True by (rewrite length_resize; lia).
  rewrite decide_False by lia. rewrite resize_ge by lia.
  rewrite insert_app_r_alt by lia. rewrite insert_replicate_lt by lia.
  by replace (S i - length elems - S (i - length elems))%nat with 0%nat by lia.
Qed.

Lemma store_elem_old elems i j x :
  (j < length elems)%nat -> i <> j -> store_elem elems i x !! j = elems !! j.
Proof.
  intros Hj Hij. unfold store_elem. case_decide.
  - by apply list_lookup_insert_ne.
  - by apply lookup_app_l.
Qed.

Lemma store_elem_hole elems i j x :
  (length elems <= j < i)%nat -> store_elem elems i x !! j = Some None.
Proof.
  intros Hj. unfold store_elem. rewrite decide_False by lia.
  rewrite lookup_app_r by lia.
  rewrite lookup_app_l by (rewrite length_replicate; lia).
  apply lookup_replicate_2. lia.
Qed.

Lemma store_elem_other elems i j x :
  i <> j -> element (store_elem elems i x) j = element elems j.
Proof.
  intros Hij. unfold element, store_elem. case_decide as Hi.
  - by rewrite list_lookup_insert_ne.
  - destruct (decide (j < length elems)%nat) as [Hj|Hj].
    + by rewrite lookup_app_l.
    + rewrite (lookup_ge_None_2 elems j) by lia.
      rewrite lookup_app_r by lia.
      destruct (decide (j < i)%nat) as [Hji|Hji].
      * rewrite lookup_app_l by (rewrite length_replicate; lia).
        rewrite lookup_replicate_2; [done|lia].
      * rewrite lookup_ge_None_2; [done|].
        rewrite length_app, length_replicate. simpl. lia.
Qed.

Lemma resize_other elems n j :
  (length elems <= n)%nat -> element (resize n None elems) j = element elems j.
Proof.
  intros Hn. unfold element.
  destruct (decide (j < length elems)%nat) as [Hj|Hj].
  - rewrite lookup_resize by lia. done.
  - rewrite (lookup_ge_None_2 elems j) by lia.
    destruct (decide (j < n)%nat) as [Hjn|Hjn].
    + rewrite lookup_resize_new by lia. done.
    + rewrite lookup_resize_old by lia. done.
Qed.

Lemma insert_other (elems : list (option value)) i j y :
  i <> j -> element (<[i := y]> elems) j = element elems j.
Proof. intros Hij. unfold element. by rewrite list_lookup_insert_ne. Qed.

Section Frame.
Context {host : Host}.

Lemma get_index_element elems props idx :
  get_index (VArray elems props) idx =
  if idx <? max_length then Got (element elems (N.to_nat idx)) else ReadBeyond.
Proof.
  simpl. unfold element. destruct (_ <? _); [|done].
  by destruct (elems !! _) as [[|]|].
Qed.

(** Two arrays with the same element at [idx] read alike there. *)
Lemma get_step_index elems elems' props idx :
  element elems' (N.to_nat idx) = element elems (N.to_nat idx) ->
  get_step (VArray elems' props) (SIndex idx) = get_step (VArray elems props) (SIndex idx).
Proof.
  intros E. unfold get_step. change (negb (isArray (VArray _ _))) with false. cbv iota.
  by rewrite !get_index_element, E.
Qed.

Lemma apart_index cur i j :
  apart cur (SIndex i) (SIndex j) -> N.to_nat i <> N.to_nat j.
Proof. intros [H _] E. apply H. f_equal. lia. Qed.

Lemma store_prop_other props key x props' key' :
  store_prop props key x = Some props' -> key <> key' -> props' !! key' = props !! key'.
Proof.
  unfold store_prop. case_decide.
  - destruct (props !! key); [|discriminate]. intros [= <-] ?. by apply lookup_insert_ne.
  - intros [= <-] ?. by apply lookup_insert_ne.
Qed.

Lemma write_slot_frame cur seg seg' y cur1 :
  apart cur seg seg' -> write_slot cur seg y = Stored cur1 ->
  get_step cur1 seg' = get_step cur seg'.
Proof.
  intros Ha W.
  destruct cur; destruct seg as [key|idx]; simpl in W; try discriminate;
    try (case_decide; discriminate).
  - destruct (store_prop _ _ _) as [props'|] eqn:S; [|discriminate]. injection W as <-.
    destruct seg' as [key'|idx']; [|reflexivity]. simpl.
    rewrite (store_prop_other _ _ _ _ key' S); [done|]. intros ->. by destruct Ha.
  - destruct Ha as [_ Ha]. by destruct (Ha eq_refl).
  - destruct (idx <? max_length); [|discriminate]. injection W as <-.
    destruct seg' as [key'|idx']; [destruct Ha as [_ Ha]; by destruct (Ha eq_refl)|].
    apply get_step_index, store_elem_other. by apply (apart_index _ _ _ Ha).
Qed.

Lemma write_back_frame cur seg seg' child :
  apart cur seg seg' ->
  get_step (write_back cur seg child) seg' = get_step cur seg'.
Proof.
  intros Ha. unfold write_back.
  destruct child; try reflexivity.
  all: destruct cur; try reflexivity; destruct seg as [key|idx]; try reflexivity.
  all: try (destruct Ha as [_ Ha]; by destruct (Ha eq_refl)).
  all: destruct seg' as [key'|idx'];
       try (destruct Ha as [_ Ha]; by destruct (Ha eq_refl)); try reflexivity.
  all: try (simpl; rewrite lookup_insert_ne; [done|intros ->; by destruct Ha]).
  all: apply get_step_index, insert_other; by apply (apart_index _ _ _ Ha).
Qed.

Lemma apart_shape cur cur' a b :
  shape_of cur' = shape_of cur -> apart cur a b -> apart cur' a b.
Proof. intros E [H1 H2]. split; [done|]. by rewrite E. Qed.

Lemma assign_last_frame cur seg seg' x :
  apart cur seg seg' ->
  get_step (snd (assign_last cur seg x)) seg' = get_step cur seg'.
Proof.
  intros Ha.
  assert (forall w, (forall cur1, w = Stored cur1 -> get_step cur1 seg' = get_step cur seg') ->
          get_step (snd (ended w cur)) seg' = get_step cur seg') as He
    by (intros [| |] H; simpl; auto).
  destruct seg as [key|idx]; simpl.
  - destruct (_ || _); [done|]. apply He. intros cur1 W.
    by apply (write_slot_frame _ (SKey key) _ x).
  - destruct (negb (isArray cur)); [done|].
    destruct cur as [| | | | | |elems props|]; try done.
    destruct (_ <=? _) eqn:G; [destruct (_ <? _); [done|]|].
    + apply He. simpl. destruct (idx <? max_length); [|discriminate]. intros cur1 [= <-].
      destruct seg' as [key'|idx']; [destruct Ha as [_ Ha]; by destruct (Ha eq_refl)|].
      apply get_step_index. rewrite store_elem_other by by apply (apart_index _ _ _ Ha).
      apply resize_other. apply N.leb_le in G. lia.
    + apply He. intros cur1 W. by apply (write_slot_frame _ (SIndex idx) _ x).
Qed.

(** The second pass changes nothing that another segment reads from the
    root. *)
Lemma walk_frame more : forall cur seg x seg',
  apart cur seg seg' ->
  get_step (snd (walk cur seg more x)) seg' = get_step cur seg'.
Proof.
  destruct more as [|next more']; intros cur seg x seg' Ha; simpl.
  - by apply assign_last_frame.
  - destruct (_ && _); [done|].
    destruct (read_slot cur seg) as [child| |]; try done.
    destruct (is_nullish child).
    + destruct (write_slot cur seg _) as [c1| |] eqn:W; try done.
      destruct (walk _ next more' x) as [r child']. simpl.
      rewrite write_back_frame.
      * by apply (write_slot_frame _ _ _ _ _ Ha W).
      * apply write_slot_shape in W as [_ E]. by apply (apart_shape cur).
    + destruct (negb _); [done|].
      destruct (walk child next more' x) as [r child']. simpl.
      by apply write_back_frame.
Qed.

End Frame.

(** ** A root that is [null] or [undefined] *)

Section NullRoot.
Context {host : Host}.

Lemma walk_nullish cur seg more x :
  is_nullish cur = true ->
  walk cur seg more x =
  (if is_index seg || bool_decide (more = []) then Returns false else Throws TypeError, cur).
Proof.
  intros Nl. destruct more as [|next more']; simpl.
  - rewrite orb_true_r. destruct cur; try discriminate; by destruct seg.
  - rewrite orb_false_r. destruct cur; try discriminate; by destruct seg.
Qed.

End NullRoot.

(** ** Building a structure from nothing *)

(** The container that holds [x] in the slot of [seg] and nothing else:
    [{key: x}], or an array with [x] at [idx] after [idx] holes. *)
Definition single (seg : segment) (x : value) : value :=
  match seg with
  | SKey key => VObject {[ key := x ]}
  | SIndex idx => VArray (replicate (N.to_nat idx) None ++ [Some x]) ∅
  end.

(** The nest of such containers along the segments, around [x]. *)
Fixpoint spine (seg : segment) (more : list segment) (x : value) : value :=
  match more with
  | [] => single seg x
  | next :: more' => single seg (spine next more' x)
  end.

(** A segment that names no member of [Object.prototype], or an index
    below the largest array length. *)
Definition plain (seg : segment) : Prop :=
  match seg with
  | SKey key => (key ∉ object_prototype) /\ key <> js "__proto__"
  | SIndex idx => idx < max_length
  end.

Lemma single_is_container seg x : is_container (single seg x) = true.
Proof. by destruct seg. Qed.

Lemma spine_is_container seg more x : is_container (spine seg more x) = true.
Proof. destruct more; apply single_is_container. Qed.

Lemma insert_hole_end (n : nat) (x y : option value) :
  <[n := y]> (replicate n None ++ [x]) = replicate n None ++ [y].
Proof.
  rewrite insert_app_r_alt by (rewrite length_replicate; lia).
  rewrite length_replicate. by replace (n - n)%nat with 0%nat by lia.
Qed.

Section Fresh.
Context {host : Host}.

Lemma read_fresh seg : plain seg -> read_slot (fresh_container seg) seg = Got VUndefined.
Proof.
  destruct seg as [key|idx]; simpl.
  - intros [Hm Hp]. rewrite lookup_empty. unfold inherited.
    rewrite decide_False by done. by rewrite bool_decide_eq_false_2.
  - intros H. apply N.ltb_lt in H as ->. reflexivity.
Qed.

Lemma write_fresh seg y :
  plain seg -> write_slot (fresh_container seg) seg y = Stored (single seg y).
Proof.
  destruct seg as [key|idx]; simpl.
  - intros [Hm Hp]. unfold store_prop. rewrite decide_False by done.
    by rewrite insert_empty.
  - intros H. apply N.ltb_lt in H as ->. unfold store_elem. simpl.
    by rewrite Nat.sub_0_r.
Qed.

Lemma write_back_single seg y child :
  is_container child = true -> write_back (single seg y) seg child = single seg child.
Proof.
  intros Hc. destruct child; try discriminate; destruct seg as [key|idx]; simpl.
  all: try (by rewrite insert_singleton_eq).
  all: by rewrite insert_hole_end.
Qed.

Lemma assign_last_fresh seg x :
  plain seg -> assign_last (fresh_container seg) seg x = (Returns true, single seg x).
Proof.
  destruct seg as [key|idx]; simpl.
  - intros [Hm Hp]. unfold store_prop. rewrite decide_False by done.
    by rewrite insert_empty.
  - intros H. replace (max_length <? idx + 1) with false
      by (symmetry; apply N.ltb_ge; lia).
    replace (N.of_nat 0 <=? idx) with true by (symmetry; apply N.leb_le; lia).
    simpl. apply N.ltb_lt in H as Hb. rewrite Hb. simpl. unfold store_elem.
    rewrite resize_nil, decide_True by (rewrite length_replicate; lia).
    replace (N.to_nat (idx + 1)) with (S (N.to_nat idx)) by lia.
    rewrite insert_replicate_lt by lia.
    by replace (S (N.to_nat idx) - S (N.to_nat idx))%nat with 0%nat by lia.
Qed.

(** From an empty container of the kind the first segment asks for, the
    second pass builds the nest of containers along the segments. *)
Lemma walk_fresh more : forall seg x,
  Forall plain (seg :: more) ->
  walk (fresh_container seg) seg more x = (Returns true, spine seg more x).
Proof.
  induction more as [|next more' IH]; intros seg x Hp;
    inversion Hp as [|? ? Hseg Hmore]; subst.
  - by apply assign_last_fresh.
  - cbn [walk spine]. rewrite read_fresh by done.
    replace (is_index seg && negb (isArray (fresh_container seg))) with false
      by (by destruct seg).
    cbn [is_nullish]. rewrite write_fresh by done. rewrite IH by done.
    by rewrite write_back_single by apply spine_is_container.
Qed.

End Fresh.

(** ** Assigning below a container that is there *)

Section Below.
Context {host : Host}.

Lemma get_segs_cons cur seg more :
  get_segs cur (seg :: more) =
  match get_step cur seg with
  | Descend child => get_segs child more
  | Finish result => result
  end.
Proof. reflexivity. Qed.

Lemma get_segs_container segs : forall cur c,
  get_segs cur segs = Returns c -> is_container c = true -> is_container cur = true.
Proof.
  induction segs as [|seg segs IH]; intros cur c; simpl; [by intros [= ->]|].
  destruct (get_step cur seg) as [child|r] eqn:S.
  - intros Hg Hc. apply get_step_read in S as [_ R].
    apply (container_parent _ _ _ R). by apply (IH child c).
  - intros -> Hc. apply get_step_returns in S as ->; discriminate.
Qed.

(** The second pass through containers that are there is the second
    pass inside the last of them, seen from the root. *)
Lemma walk_below pre : forall cur s0 c seg more x,
  get_segs cur (s0 :: pre) = Returns c -> is_container c = true ->
  fst (walk cur s0 (pre ++ seg :: more) x) = fst (walk c seg more x) /\
  get_segs (snd (walk cur s0 (pre ++ seg :: more) x)) (s0 :: pre)
    = Returns (snd (walk c seg more x)).
Proof.
  induction pre as [|s1 pre IH]; intros cur s0 c seg more x Hg Hc.
  - cbn [get_segs] in Hg. destruct (get_step cur s0) as [child|r] eqn:S.
    2:{ subst r. apply get_step_returns in S as ->; discriminate. }
    injection Hg as ->. apply get_step_read in S as [G R].
    cbn [app walk]. rewrite G, R. destruct (container_typeof _ Hc) as [-> ->].
    cbn [negb]. pose proof (walk_container more c seg x Hc) as Hc'.
    destruct (walk c seg more x) as [r c']. cbn [fst snd] in *. split; [done|].
    cbn [get_segs]. by rewrite (step_after_descend _ _ _ _ G R Hc Hc').
  - rewrite get_segs_cons in Hg. destruct (get_step cur s0) as [child|r] eqn:S.
    2:{ subst r. apply get_step_returns in S as ->; discriminate. }
    apply get_step_read in S as [G R].
    pose proof (get_segs_container _ _ _ Hg Hc) as Hchild.
    destruct (IH child s1 c seg more x Hg Hc) as [IH1 IH2].
    change ((s1 :: pre) ++ seg :: more) with (s1 :: pre ++ seg :: more).
    cbn [walk]. rewrite G, R. destruct (container_typeof _ Hchild) as [-> ->].
    cbn [negb].
    pose proof (walk_container (pre ++ seg :: more) child s1 x Hchild) as Hc'.
    destruct (walk child s1 (pre ++ seg :: more) x) as [r child'].
    cbn [fst snd] in *. split; [done|].
    rewrite get_segs_cons, (step_after_descend _ _ _ _ G R Hchild Hc'). exact IH2.
Qed.

(** The final assignment at an index below the largest array length. *)
Lemma assign_last_array elems props idx x :
  idx < max_length ->
  assign_last (VArray elems props) (SIndex idx) x
    = (Returns true, VArray (store_elem elems (N.to_nat idx) x) props).
Proof.
  intros Hmax. simpl. apply N.ltb_lt in Hmax as Hb.
  destruct (N.of_nat (length elems) <=? idx) eqn:G.
  - replace (max_length <? idx + 1) with false by (symmetry; apply N.ltb_ge; lia).
    simpl. rewrite Hb. simpl. apply N.leb_le in G.
    replace (N.to_nat (idx + 1)) with (S (N.to_nat idx)) by lia.
    rewrite store_elem_resize by lia. reflexivity.
  - simpl. by rewrite Hb.
Qed.

(** The same from the root, where no segment may lead to [c]. *)
Lemma second_pass_below segs cur c seg more x :
  get_segs cur segs = Returns c -> is_container c = true ->
  fst (second_pass cur (segs ++ seg :: more) x) = fst (walk c seg more x) /\
  get_segs (snd (second_pass cur (segs ++ seg :: more) x)) segs
    = Returns (snd (walk c seg more x)).
Proof.
  intros Hg Hc. destruct segs as [|s0 pre].
  - injection Hg as ->. done.
  - by apply walk_below.
Qed.

(** The second pass through the containers on the way to [c], ending
    with a final assignment that succeeds there. *)
Lemma walk_into segs cur c last x c' :
  get_segs cur segs = Returns c -> is_container c = true ->
  assign_last c last x = (Returns true, c') ->
  exists cur',
    second_pass cur (segs ++ [last]) x = (Returns true, cur') /\
    get_segs cur' segs = Returns c'.
Proof.
  intros Hg Hc W.
  destruct (second_pass_below segs cur c last [] x Hg Hc) as [H1 H2].
  simpl in H1, H2. rewrite W in H1, H2. simpl in H1, H2.
  destruct (second_pass cur (segs ++ [last]) x) as [r cur']. simpl in *. subst r.
  by exists cur'.
Qed.

Lemma get_segs_undefined segs : get_segs VUndefined segs = Returns VUndefined.
Proof. destruct segs as [|[]]; reflexivity. Qed.

(** The steps of two lists of segments, one after the other. *)
Lemma get_segs_app segs segs' : forall cur,
  get_segs cur (segs ++ segs') =
  match get_segs cur segs with
  | Returns v => get_segs v segs'
  | o => o
  end.
Proof.
  induction segs as [|seg segs IH]; intros cur; simpl; [done|].
  destruct (get_step cur seg) as [child|r] eqn:S; [apply IH|].
  apply get_step_absent in S as [[-> | ->] | ->]; [|done..].
  by rewrite get_segs_undefined.
Qed.

(** Below a container that is there, the second pass changes nothing
    that another segment reads from that container. *)
Lemma second_pass_frame segs cur c seg more seg' t x :
  get_segs cur segs = Returns c -> is_container c = true -> apart c seg seg' ->
  get_segs (snd (second_pass cur (segs ++ seg :: more) x)) (segs ++ seg' :: t)
    = get_segs cur (segs ++ seg' :: t).
Proof.
  intros Hg Hc Ha.
  destruct (second_pass_below segs cur c seg more x Hg Hc) as [_ H].
  rewrite !get_segs_app, H, Hg. simpl. by rewrite walk_frame.
Qed.

(** A slot that reads as [null] or [undefined] in a container that
    serves the segment can be written. *)
Lemma write_absent cur seg child y :
  serves cur seg -> read_slot cur seg = Got child -> is_nullish child = true ->
  exists cur1, write_slot cur seg y = Stored cur1.
Proof.
  intros Hs R Nl. destruct seg as [key|idx]; simpl in *.
  - destruct cur; simpl in *; try done.
    + unfold store_prop. case_decide as P; [|eauto].
      destruct (props !! key); [eauto|]. injection R as <-.
      unfold inherited in Nl. rewrite decide_True in Nl by done. discriminate.
    + destruct (canonical_index key); [eauto|].
      case_decide; [injection R as <-; discriminate|].
      unfold store_prop. case_decide as P; [|eauto].
      destruct (props !! key); [eauto|]. injection R as <-.
      unfold inherited in Nl. rewrite decide_True in Nl by done. discriminate.
  - destruct cur; simpl in *; try done.
    destruct (idx <? max_length); [eauto|discriminate].
Qed.

(** From a container that serves the segment the getter's step reads
    the slot. *)
Lemma serves_step cur seg v :
  serves cur seg -> get_segs cur [seg] = Returns v -> read_slot cur seg = Got v.
Proof.
  intros Hs. simpl. destruct (get_step cur seg) as [child|r] eqn:S.
  - intros [= ->]. by apply get_step_read in S as [_ R].
  - intros ->. exfalso. unfold get_step in S. destruct seg as [key|idx].
    + destruct cur; try done; cbn [is_nullish] in S;
        destruct (get_prop _ key); discriminate.
    + destruct cur; try done; cbn [isArray negb] in S;
        destruct (get_index _ idx); discriminate.
Qed.

(** In an absent slot the second pass puts the nest of containers for
    the segments that follow. *)
Lemma walk_creates cur seg next more x child :
  serves cur seg -> read_slot cur seg = Got child -> is_nullish child = true ->
  Forall plain (next :: more) ->
  exists cur',
    walk cur seg (next :: more) x = (Returns true, cur') /\
    get_step cur' seg = Descend (spine next more x).
Proof.
  intros Hs R Nl Hp.
  destruct (write_absent cur seg child (fresh_container next) Hs R Nl) as [c1 W].
  exists (write_back c1 seg (spine next more x)). split.
  - cbn [walk]. rewrite R, Nl, W, walk_fresh by done.
    replace (is_index seg && negb (isArray cur)) with false; [done|].
    destruct seg; simpl in *; [done|]. by destruct cur.
  - apply (step_after_write _ _ _ _ _ W), spine_is_container.
Qed.

End Below.

(** ** The value assigned plays no part in the walk *)

Section Value.
Context {host : Host}.

(** Whether a write is accepted does not depend on what is written. *)
Definition same_ending (w w' : write) : Prop :=
  match w, w' with
  | Stored _, Stored _ | WriteThrows, WriteThrows | WriteBeyond, WriteBeyond => True
  | _, _ => False
  end.

Lemma set_prop_ending cur key x y : same_ending (set_prop cur key x) (set_prop cur key y).
Proof.
  destruct cur; simpl; try done; try (by case_decide).
  - unfold store_prop. case_decide; [destruct (_ !! _)|]; done.
  - destruct (canonical_index key); [done|]. case_decide; [done|].
    unfold store_prop. case_decide; [destruct (_ !! _)|]; done.
Qed.

Lemma ended_value w w' cur :
  same_ending w w' ->
  fst (ended w cur) = fst (ended w' cur) /\
  (fst (ended w cur) <> Returns true -> snd (ended w cur) = snd (ended w' cur)).
Proof. destruct w, w'; simpl; done. Qed.

Lemma assign_last_value cur last x y :
  fst (assign_last cur last x) = fst (assign_last cur last y) /\
  (fst (assign_last cur last x) <> Returns true ->
   snd (assign_last cur last x) = snd (assign_last cur last y)).
Proof.
  destruct last as [key|idx]; simpl.
  - destruct (_ || _); [done|]. apply ended_value, set_prop_ending.
  - destruct (negb (isArray cur)); [done|]. destruct cur; try done.
    destruct (_ <=? _); [destruct (_ <? _); [done|]|];
      apply ended_value; simpl; by destruct (idx <? max_length).
Qed.

Lemma walk_value more : forall cur seg x y,
  fst (walk cur seg more x) = fst (walk cur seg more y) /\
  (fst (walk cur seg more x) <> Returns true ->
   snd (walk cur seg more x) = snd (walk cur seg more y)).
Proof.
  induction more as [|next more' IH]; intros cur seg x y; simpl.
  - apply assign_last_value.
  - destruct (_ && _); [done|].
    destruct (read_slot cur seg) as [child| |]; try done.
    destruct (is_nullish child).
    + destruct (write_slot cur seg _) as [c1| |]; try done.
      destruct (IH (fresh_container next) next x y) as [E1 E2].
      destruct (walk _ next more' x) as [r child'], (walk _ next more' y) as [r' child''].
      simpl in *. split; [done|]. intros Hr. by rewrite (E2 Hr).
    + destruct (negb _); [done|].
      destruct (IH child next x y) as [E1 E2].
      destruct (walk _ next more' x) as [r child'], (walk _ next more' y) as [r' child''].
      simpl in *. split; [done|]. intros Hr. by rewrite (E2 Hr).
Qed.

End Value.

(** ** Assignments under different keys of an object *)

(** The own properties after [o] was put under [key], if anything was. *)
Definition put (key : jsstring) (o : option value) (props : gmap jsstring value)
  : gmap jsstring value :=
  match o with
  | Some v => <[key := v]> props
  | None => props
  end.

Lemma put_other key o props key' : key <> key' -> put key o props !! key' = props !! key'.
Proof. intros H. destruct o; simpl; [by apply lookup_insert_ne|done]. Qed.

Lemma put_same key o props props' :
  props !! key = props' !! key -> put key o props !! key = put key o props' !! key.
Proof. intros E. destruct o; simpl; [by rewrite !lookup_insert_eq|done]. Qed.

Section Local.
Context {host : Host}.

Lemma store_prop_local props props' key x :
  props !! key = props' !! key ->
  (store_prop props key x = None /\ store_prop props' key x = None) \/
  (store_prop props key x = Some (<[key := x]> props) /\
   store_prop props' key x = Some (<[key := x]> props')).
Proof.
  intros E. unfold store_prop. case_decide; [|auto].
  rewrite <- E. destruct (props !! key); auto.
Qed.

(** On an object the walk from a key segment looks at the property of
    that name and at nothing else, and puts a value there or leaves the
    object as it is. *)
Lemma walk_object_local props props' key more x :
  props !! key = props' !! key ->
  exists r o,
    walk (VObject props) (SKey key) more x = (r, VObject (put key o props)) /\
    walk (VObject props') (SKey key) more x = (r, VObject (put key o props')).
Proof.
  intros E. destruct more as [|next more']; simpl.
  - destruct (store_prop_local props props' key x E) as [[-> ->]|[-> ->]]; simpl.
    + by exists Beyond, None.
    + by exists (Returns true), (Some x).
  - rewrite <- E. set (child := match props !! key with
                               | Some y => y | None => inherited KObject key end).
    replace (match props !! key with
             | Some y => Got y | None => Got (inherited KObject key) end)
      with (Got child) by (unfold child; by destruct (props !! key)).
    destruct (is_nullish child).
    + destruct (store_prop_local props props' key (fresh_container next) E)
        as [[-> ->]|[-> ->]]; simpl.
      { by exists Beyond, None. }
      pose proof (walk_container more' _ next x (fresh_container_is next)) as Hc.
      destruct (walk _ next more' x) as [r child']. simpl in Hc.
      exists r, (Some child').
      destruct child'; try discriminate; simpl; by rewrite !insert_insert_eq.
    + destruct (negb _); [by exists (Returns false), None|].
      destruct (walk child next more' x) as [r child'].
      destruct child'; simpl;
        first [by exists r, None | by eexists r, (Some _)].
Qed.

End Local.

(** ** What the setter throws *)

Section Throwing.
Context {host : Host}.

Lemma read_container cur seg : is_container cur = true -> read_slot cur seg <> ReadThrows.
Proof.
  destruct seg as [key|idx]; simpl.
  - intros Hc H. apply get_prop_defined in H as [-> _]; [discriminate|by destruct cur].
  - destruct cur; try discriminate; intros _; simpl; try discriminate.
    destruct (_ <? _); [|discriminate]. destruct (_ !! _) as [[|]|]; discriminate.
Qed.

Lemma write_container cur seg y :
  is_container cur = true -> write_slot cur seg y <> WriteThrows.
Proof.
  destruct cur; try discriminate; intros _; destruct seg as [key|idx]; simpl.
  - destruct (store_prop _ _ _); discriminate.
  - discriminate.
  - destruct (canonical_index key); [discriminate|]. case_decide; [discriminate|].
    destruct (store_prop _ _ _); discriminate.
  - destruct (_ <? _); discriminate.
Qed.

Lemma walk_host_ends k seg more x e :
  fst (walk (VHost (HPrototype k)) seg more x) <> Throws e.
Proof.
  destruct more as [|next more']; simpl.
  - destruct seg as [key|idx]; simpl; [discriminate|].
    destruct k; simpl; discriminate.
  - destruct seg as [key|idx]; simpl; [discriminate|].
    destruct k; simpl; discriminate.
Qed.

(** From an object or an array the second pass throws only when the
    growth of an array for the last index fails. *)
Lemma walk_throws more : forall cur seg x e,
  is_container cur = true -> fst (walk cur seg more x) = Throws e ->
  e = RangeError /\ exists idx, last (seg :: more) = Some (SIndex idx) /\ max_length <= idx.
Proof.
  induction more as [|next more' IH]; intros cur seg x e Hc.
  - simpl. destruct seg as [key|idx]; simpl.
    + destruct (_ || _); [discriminate|].
      pose proof (write_container cur (SKey key) x Hc) as W. simpl in W.
      destruct (set_prop cur key x); simpl; try discriminate. done.
    + destruct (negb (isArray cur)); [discriminate|].
      destruct cur as [| | | | | |elems props|]; try discriminate.
      destruct (_ <=? _).
      * destruct (max_length <? idx + 1) eqn:M.
        -- intros [= <-]. split; [done|]. exists idx. split; [done|].
           apply N.ltb_lt in M. lia.
        -- simpl. destruct (idx <? max_length); discriminate.
      * simpl. destruct (idx <? max_length); discriminate.
  - change (last (seg :: next :: more')) with (last (next :: more')).
    cbn [walk]. destruct (_ && _); [discriminate|].
    pose proof (read_container cur seg Hc) as R.
    destruct (read_slot cur seg) as [child| |]; try done.
    destruct (is_nullish child) eqn:Nl.
    + pose proof (write_container cur seg (fresh_container next) Hc) as W.
      destruct (write_slot cur seg _) as [c1| |]; try done.
      specialize (IH (fresh_container next) next x e (fresh_container_is next)).
      destruct (walk _ next more' x) as [r child']. exact IH.
    + destruct (negb (typeof_object child)) eqn:Ty; [discriminate|].
      destruct child as [| | | | |cp|ce cp|[|k]]; try discriminate.
      * specialize (IH (VObject cp) next x e eq_refl).
        destruct (walk _ next more' x) as [r child']. exact IH.
      * specialize (IH (VArray ce cp) next x e eq_refl).
        destruct (walk _ next more' x) as [r child']. exact IH.
      * pose proof (walk_host_ends k next more' x e) as H.
        destruct (walk _ next more' x) as [r child']. intros E. by destruct H.
Qed.

End Throwing.

(** * The claims of the specification *)

(** A statement that holds whatever the members of the host's prototypes. *)
Definition every_host (P : Host -> Prop) : Prop := forall host : Host, P host.

(** The reading of "type-compatible" that has a key segment address a
    mapping only. *)
Definition serves_strictly (cur : value) (seg : segment) : Prop :=
  match seg with
  | SKey _ => shape_of cur = Mapping
  | SIndex _ => shape_of cur = Sequence
  end.

Section Claims.
Context {host : Host}.

(** C1, amended: whenever [setTinyJsonPath] returns [true], looking up
    the same path on the structure it leaves yields the assigned value.
    (Stated for every path the setter accepts; the structure is a tree of
    values, which is what JSON-safe comes to.) *)
Theorem roundtrip_after_success obj path x obj' :
  setTinyJsonPath obj path x = (Returns true, obj') ->
  getTinyJsonPath obj' path = Returns x.
Proof.
  unfold setTinyJsonPath, getTinyJsonPath.
  destruct path as [|c rest]; [discriminate|].
  destruct (c =? DOLLAR); [|discriminate].
  destruct (tokenize rest []) as [segs unread| |] eqn:T; try discriminate.
  destruct segs as [|seg more]; [discriminate|]. simpl. intros W.
  rewrite (get_loop_tokens _ _ _ _ T). by apply (walk_roundtrip _ _ _ _ _ W).
Qed.

(** C2, at the failing input: the first pass stops on the [!] of [$.a!]
    with the segment [a] scanned and [!] left unread; nothing compares the
    cursor with the length of the path, and the setter assigns [a] and
    returns [true]. *)
Theorem setter_accepts_trailing_characters :
  tokenize (js ".a!") [] = Tokens [SKey (js "a")] (js "!") /\
  setTinyJsonPath (object_of []) (js "$.a!") (VNum 1)
    = (Returns true, object_of [("a", VNum 1)]).
Proof. split; vm_compute; reflexivity. Qed.

(** C3: some call returns [false] after it has created a container,
    and the container stays: on [{}] with the path [$.a.constructor.b] the
    object created for [a] is there when the inherited [constructor], a
    function, ends the call.  A failure of the first pass changes
    nothing. *)
Theorem late_failure_keeps_created_containers :
  (exists obj path x obj',
     setTinyJsonPath obj path x = (Returns false, obj') /\
     getTinyJsonPath obj (js "$.a") = Returns VUndefined /\
     getTinyJsonPath obj' (js "$.a") = Returns empty_object) /\
  (forall obj rest x,
     tokenize rest [] = TokError ->
     setTinyJsonPath obj (DOLLAR :: rest) x = (Returns false, obj)).
Proof.
  split.
  - exists (object_of []), (js "$.a.constructor.b"), (VNum 1),
      (object_of [("a", empty_object)]).
    repeat split; vm_compute; reflexivity.
  - intros obj rest x T. unfold setTinyJsonPath. simpl. by rewrite T.
Qed.

(** C4, at the failing input: with [null] for the structure and a path of
    two segments that starts with a key, the setter throws a TypeError
    (the loop reads [cur[seg.key]] with no check of [cur]). *)
Theorem setter_throws_on_null_root :
  setTinyJsonPath VNull (js "$.a.b") (VNum 1) = (Throws TypeError, VNull).
Proof. vm_compute. reflexivity. Qed.

(** C5, amended: when the setter returns [true], every container on the
    way of the path in the structure it leaves serves its segment: an
    index segment addresses a sequence, a key segment a mapping or a
    sequence.  And a primitive in the slot of a segment that is not the
    last makes the call return [false], the structure as it was. *)
Theorem containers_serve_their_segments obj rest segs unread x :
  tokenize rest [] = Tokens segs unread ->
  (forall obj',
     setTinyJsonPath obj (DOLLAR :: rest) x = (Returns true, obj') ->
     served_along obj' segs) /\
  (forall pre seg post p,
     segs = pre ++ seg :: post -> post <> [] ->
     get_segs obj (pre ++ [seg]) = Returns p -> is_primitive p = true ->
     setTinyJsonPath obj (DOLLAR :: rest) x = (Returns false, obj)).
Proof.
  intros T. unfold setTinyJsonPath. simpl. rewrite T. split.
  - intros obj'. destruct segs as [|seg more]; [discriminate|]. apply walk_served.
  - intros pre seg post p -> Hpost Hg Hp. by apply (walk_primitive pre _ _ _ _ p).
Qed.

(** C6: at a segment that is not the last, in a container that serves
    it, when the slot is absent the walk puts a new container there and goes
    on inside it.  The call ends as the walk of the segments that follow
    ends from an empty array, if the next segment is an index, and from an
    empty object otherwise; the slot then holds that container as the rest
    of the walk has left it, an array or an object accordingly, and the
    other slots are as they were.  When the segments that follow are plain
    the call returns [true] and the slot holds the nest of containers along
    them around the value. *)
Theorem absent_slot_gets_container cur seg next more x child :
  serves cur seg ->
  read_slot cur seg = Got child -> is_nullish child = true ->
  exists r created cur',
    walk (if is_index next then empty_array else empty_object) next more x
      = (r, created) /\
    walk cur seg (next :: more) x = (r, cur') /\
    get_step cur' seg = Descend created /\
    shape_of created = (if is_index next then Sequence else Mapping) /\
    (forall seg', apart cur seg seg' -> get_step cur' seg' = get_step cur seg') /\
    (Forall plain (next :: more) -> r = Returns true /\ created = spine next more x).
Proof.
  intros Hs R Nl.
  destruct (write_absent cur seg child (fresh_container next) Hs R Nl) as [cur1 W].
  pose proof (walk_frame (next :: more) cur seg x) as Hf.
  pose proof (walk_shape more (fresh_container next) next x) as Hsh.
  pose proof (walk_container more (fresh_container next) next x
                (fresh_container_is next)) as Hc.
  pose proof (walk_fresh more next x) as Hn.
  cbn [walk] in Hf. rewrite R, Nl, W in Hf.
  replace (is_index seg && negb (isArray cur)) with false in Hf
    by (destruct seg; simpl in *; [done|]; by destruct cur).
  change (if is_index next then empty_array else empty_object)
    with (fresh_container next).
  destruct (walk (fresh_container next) next more x) as [r created] eqn:Wk.
  simpl in *. exists r, created, (write_back cur1 seg created).
  split; [done|]. split.
  { rewrite R, Nl, W, Wk.
    replace (is_index seg && negb (isArray cur)) with false
      by (destruct seg; simpl in *; [done|]; by destruct cur).
    reflexivity. }
  split; [by apply (step_after_write _ _ _ _ _ W)|].
  split; [rewrite Hsh; unfold fresh_container; by destruct (is_index next)|].
  split; [exact Hf|]. intros Hp. specialize (Hn Hp). by injection Hn.
Qed.

(** C7, amended: when the last segment is an index at or past the length
    of the array it addresses, and below the largest array length
    [max_length], the call returns [true]; the array then has length
    [idx + 1] with the value at [idx], the elements it had where they
    were, and holes from its old length up to [idx]. *)
Theorem growth_leaves_holes elems props idx x :
  N.of_nat (length elems) <= idx -> idx < max_length ->
  exists elems',
    assign_last (VArray elems props) (SIndex idx) x
      = (Returns true, VArray elems' props) /\
    N.of_nat (length elems') = idx + 1 /\
    elems' !! N.to_nat idx = Some (Some x) /\
    (forall j, (j < length elems)%nat -> elems' !! j = elems !! j) /\
    (forall j, (length elems <= j < N.to_nat idx)%nat -> elems' !! j = Some None).
Proof.
  intros Hlen Hmax.
  exists (<[N.to_nat idx := Some x]> (resize (N.to_nat (idx + 1)) None elems)).
  assert (N.to_nat (idx + 1) = S (N.to_nat idx)) as E1 by lia.
  assert (length elems <= N.to_nat idx)%nat as Hlen' by lia.
  repeat split.
  - simpl. apply N.leb_le in Hlen as ->.
    replace (max_length <? idx + 1) with false by (symmetry; apply N.ltb_ge; lia).
    simpl. apply N.ltb_lt in Hmax as ->. simpl. unfold store_elem.
    rewrite decide_True; [done|]. rewrite length_resize. lia.
  - rewrite length_insert, length_resize. lia.
  - apply list_lookup_insert_eq. rewrite length_resize. lia.
  - intros j Hj. rewrite list_lookup_insert_ne by lia.
    apply lookup_resize; lia.
  - intros j Hj. rewrite list_lookup_insert_ne by lia.
    apply lookup_resize_new; lia.
Qed.

(** C8, amended: a quote after a backslash closes the quoted key like any
    other quote, the backslash being a character of the key.  When what
    follows that quote, white space skipped, is not a closing bracket, the
    setter returns [false] and changes nothing, and the getter returns
    [undefined] whenever it returns along the segments before.  When a
    closing bracket follows, the segment is scanned, with the key that ends
    in the backslash. *)
Theorem escaped_quote_closes_the_key ps w1 w2 q key tail obj x :
  Forall well_formed ps -> Forall (fun p => token_of p <> None) ps ->
  blank w1 -> blank w2 -> q = DQUOTE \/ q = SQUOTE ->
  Forall (fun c => negb (c =? q) = true) key ->
  (stops (fun c => c =? RBRACKET) (eatWs tail) ->
   setTinyJsonPath obj
     (DOLLAR :: render ps ++ w1 ++ LBRACKET :: w2 ++ q :: key
                         ++ BACKSLASH :: q :: tail) x = (Returns false, obj) /\
   (forall v,
      getTinyJsonPath obj (DOLLAR :: render ps) = Returns v ->
      getTinyJsonPath obj
        (DOLLAR :: render ps ++ w1 ++ LBRACKET :: w2 ++ q :: key
                            ++ BACKSLASH :: q :: tail) = Returns VUndefined)) /\
  (forall w3 rest,
     blank w3 -> tail = w3 ++ RBRACKET :: rest ->
     scan_segment (w1 ++ LBRACKET :: w2 ++ q :: key ++ BACKSLASH :: q :: tail)
       = ScanSeg (SKey (key ++ [BACKSLASH])) rest).
Proof.
  intros Hps Htok Hw1 Hw2 Hq Hkey.
  set (bad := w1 ++ LBRACKET :: w2 ++ q :: key ++ BACKSLASH :: q :: tail).
  assert (stops is_keychar bad) as Hs.
  { unfold bad. apply stops_blank_app; [apply ws_not_keychar|done|reflexivity]. }
  assert (bad <> []) as Hne by (unfold bad; destruct w1; discriminate).
  split.
  - intros Htail.
    assert (scan_segment bad = ScanError) as E.
    { unfold bad. rewrite scan_escaped_quote by done.
      destruct (eatWs tail) as [|c r]; [done|]. simpl in Htail. by rewrite Htail. }
    unfold getTinyJsonPath, setTinyJsonPath. simpl. split.
    + rewrite tokenize_render by done.
      destruct (tokenize_pieces_scanned ps [] (tokenize bad) Htok) as [acc ->].
      rewrite tokenize_body, E. by destruct bad.
    + intros v. rewrite <- (app_nil_r (render ps)) at 1.
      rewrite !get_loop_render by done.
      rewrite (get_pieces_ext _ (get_loop []) Returns)
        by (intros cur; by rewrite get_loop_body).
      rewrite (get_pieces_ext _ (get_loop bad) (fun _ => Returns VUndefined)).
      * apply get_pieces_undefined.
      * intros cur. rewrite get_loop_body, E. by destruct bad.
  - intros w3 rest Hw3 ->. unfold bad. rewrite scan_escaped_quote by done.
    rewrite eatWs_blank_stops by (done || reflexivity).
    simpl. reflexivity.
Qed.

(** C9, amended: two paths that differ only in white space, the
    characters that [/\s/] matches, before a segment, after a dot, inside
    the brackets around the key or index, or at the end of the path behave
    alike: the getter gives the same result, and the setter ends the same
    way and leaves the same structure. *)
Theorem whitespace_is_ignored ps ps' w w' obj x :
  Forall well_formed ps -> Forall well_formed ps' -> blank w -> blank w' ->
  map strip ps = map strip ps' ->
  getTinyJsonPath obj (DOLLAR :: render ps ++ w)
    = getTinyJsonPath obj (DOLLAR :: render ps' ++ w') /\
  setTinyJsonPath obj (DOLLAR :: render ps ++ w) x
    = setTinyJsonPath obj (DOLLAR :: render ps' ++ w') x.
Proof.
  intros Hps Hps' Hw Hw' E.
  assert (forall l, map token_of l = map token_of (map strip l)) as Hstrip.
  { intros l. rewrite map_map. apply map_ext. intros p. by rewrite token_of_strip. }
  assert (map token_of ps = map token_of ps') as Et
    by (by rewrite (Hstrip ps), (Hstrip ps'), E).
  unfold getTinyJsonPath, setTinyJsonPath. simpl.
  rewrite !get_loop_render, !tokenize_render by auto using blank_stops_keychar.
  rewrite Et. split.
  - apply get_pieces_ext. intros cur. by rewrite !get_loop_blank.
  - rewrite (tokenize_pieces_ext _ (tokenize w) (tokenize w')); [reflexivity|].
    intros acc. by rewrite !tokenize_blank.
Qed.

(** C10, at the failing input: on [{}] the path [$.constructor.caller]
    passes the guard [cur == null] at both segments: [constructor] is the
    built-in function that every object inherits, and reading [caller] from
    it throws a TypeError. *)
Theorem getter_throws_inside_a_function :
  getTinyJsonPath (object_of []) (js "$.constructor") = Returns (VHost HFunction) /\
  is_nullish (VHost HFunction) = false /\
  getTinyJsonPath (object_of []) (js "$.constructor.caller") = Throws TypeError.
Proof. repeat split; vm_compute; reflexivity. Qed.

End Claims.

(** ** Counterexamples and instances *)

(** C1 as stated fails: on [{a: 1}] the setter refuses [$.a[0]], and the
    getter then finds nothing there. *)
Lemma roundtrip_fails_when_assign_fails :
  every_host (fun host =>
    let obj := object_of [("a", VNum 1)] in
    let path := js "$.a[0]" in
    let x := text "x" in
    fst (setTinyJsonPath obj path x) = Returns false /\
    getTinyJsonPath (snd (setTinyJsonPath obj path x)) path = Returns VUndefined /\
    getTinyJsonPath (snd (setTinyJsonPath obj path x)) path <> Returns x).
Proof. intros host. vm_compute. repeat split; discriminate. Qed.

(** C1, an instance: the round trip of [$.list[1].name] from [{}]. *)
Lemma roundtrip_after_success_witness :
  every_host (fun host =>
    let obj' := object_of [("list", VArray [None; Some (object_of [("name", text "Joe")])] ∅)] in
    setTinyJsonPath (object_of []) (js "$.list[1].name") (text "Joe") = (Returns true, obj') /\
    getTinyJsonPath obj' (js "$.list[1].name") = Returns (text "Joe")).
Proof.
  intros host.
  assert (setTinyJsonPath (object_of []) (js "$.list[1].name") (text "Joe")
          = (Returns true,
             object_of [("list", VArray [None; Some (object_of [("name", text "Joe")])] ∅)]))
    as H by (vm_compute; reflexivity).
  split; [exact H|]. exact (roundtrip_after_success _ _ _ _ H).
Defined.

(** C5 as stated fails: in [{a: []}] the key segment [b] of [$.a.b]
    addresses the array, and the call returns [true]. *)
Lemma key_segment_addresses_an_array :
  every_host (fun host =>
    setTinyJsonPath (object_of [("a", array_of [])]) (js "$.a.b") (VNum 1)
      = (Returns true, object_of [("a", VArray [] {[ js "b" := VNum 1 ]})]) /\
    ~ serves_strictly (VArray [] {[ js "b" := VNum 1 ]}) (SKey (js "b"))).
Proof. intros host. split; [vm_compute; reflexivity|discriminate]. Qed.

(** C5, an instance: [$.a.b] on [{a: 5}] meets the number in the slot of
    [a]. *)
Lemma containers_serve_their_segments_witness :
  every_host (fun host =>
    tokenize (js ".a.b") [] = Tokens [SKey (js "a"); SKey (js "b")] [] /\
    setTinyJsonPath (object_of [("a", VNum 5)]) (js "$.a.b") (VNum 1)
      = (Returns false, object_of [("a", VNum 5)])).
Proof.
  intros host.
  assert (tokenize (js ".a.b") [] = Tokens [SKey (js "a"); SKey (js "b")] [])
    as H by (vm_compute; reflexivity).
  split; [exact H|].
  refine (proj2 (containers_serve_their_segments
                   (object_of [("a", VNum 5)]) _ _ _ (VNum 1) H)
                [] (SKey (js "a")) [SKey (js "b")] (VNum 5) eq_refl _ _ eq_refl).
  - discriminate.
  - vm_compute. reflexivity.
Defined.

(** C6, an instance: the first turn of the walk of [$.a[0].b] from [{}]. *)
Lemma absent_slot_gets_container_witness :
  every_host (fun host =>
    read_slot (object_of []) (SKey (js "a")) = Got VUndefined /\
    exists r created cur',
      walk (if is_index (SIndex 0) then empty_array else empty_object)
           (SIndex 0) [SKey (js "b")] (text "ok") = (r, created) /\
      walk (object_of []) (SKey (js "a")) [SIndex 0; SKey (js "b")] (text "ok")
        = (r, cur') /\
      get_step cur' (SKey (js "a")) = Descend created /\
      shape_of created = (if is_index (SIndex 0) then Sequence else Mapping) /\
      (forall seg', apart (object_of []) (SKey (js "a")) seg' ->
                    get_step cur' seg' = get_step (object_of []) seg') /\
      (Forall plain [SIndex 0; SKey (js "b")] ->
       r = Returns true /\ created = spine (SIndex 0) [SKey (js "b")] (text "ok"))).
Proof.
  intros host.
  assert (read_slot (object_of []) (SKey (js "a")) = Got VUndefined) as R
    by (vm_compute; reflexivity).
  split; [exact R|].
  refine (absent_slot_gets_container (object_of []) (SKey (js "a")) (SIndex 0)
            [SKey (js "b")] (text "ok") VUndefined _ R eq_refl).
  discriminate.
Defined.

(** C7 as stated fails: the index [4294967295] is past the largest array
    length, and the growth throws a RangeError. *)
Lemma growth_past_the_largest_length_throws :
  every_host (fun host =>
    setTinyJsonPath (array_of []) (js "$[4294967295]") (VNum 1)
      = (Throws RangeError, array_of [])).
Proof. intros host. vm_compute. reflexivity. Qed.

(** C7, an instance: the index 3 in [['x']]. *)
Lemma growth_leaves_holes_witness :
  N.of_nat (length [Some (text "x")]) <= 3 /\ 3 < max_length /\
  exists elems',
    assign_last (VArray [Some (text "x")] ∅) (SIndex 3) (text "y")
      = (Returns true, VArray elems' ∅) /\
    N.of_nat (length elems') = 3 + 1 /\
    elems' !! N.to_nat 3 = Some (Some (text "y")) /\
    (forall j, (j < length [Some (text "x")])%nat -> elems' !! j = [Some (text "x")] !! j) /\
    (forall j, (length [Some (text "x")] <= j < N.to_nat 3)%nat -> elems' !! j = Some None).
Proof.
  assert (N.of_nat (length [Some (text "x")]) <= 3) as H1 by (simpl; lia).
  assert (3 < max_length) as H2 by reflexivity.
  split; [exact H1|]. split; [exact H2|].
  exact (growth_leaves_holes [Some (text "x")] ∅ 3 (text "y") H1 H2).
Defined.

(** C8 as stated fails: in [$['a\']] the closing quote comes after a
    backslash and the closing bracket follows it; both calls succeed, with
    the key [a\]. *)
Lemma backslash_before_a_quote_can_succeed :
  every_host (fun host =>
    tokenize (js "['a\']") [] = Tokens [SKey (js "a\")] [] /\
    getTinyJsonPath (object_of [("a\", VNum 5)]) (js "$['a\']") = Returns (VNum 5) /\
    setTinyJsonPath (object_of []) (js "$['a\']") (VNum 1)
      = (Returns true, object_of [("a\", VNum 1)])).
Proof. intros host. repeat split; vm_compute; reflexivity. Qed.

(** C8, an instance: the path of the repository's test, [$['o\'clock']],
    and the segment [['a\']]. *)
Lemma escaped_quote_closes_the_key_witness :
  every_host (fun host =>
    let obj := object_of [("o'clock", text "twelve")] in
    (setTinyJsonPath obj (js "$['o\'clock']") (VNum 1) = (Returns false, obj) /\
     getTinyJsonPath obj (js "$['o\'clock']") = Returns VUndefined) /\
    scan_segment (js "['a\']") = ScanSeg (SKey (js "a\")) []).
Proof.
  intros host.
  assert (Forall (fun c => negb (c =? SQUOTE) = true) (js "o")) as Ho
    by repeat constructor.
  assert (Forall (fun c => negb (c =? SQUOTE) = true) (js "a")) as Ha
    by repeat constructor.
  pose proof (escaped_quote_closes_the_key [] [] [] SQUOTE (js "o") (js "clock']")
                (object_of [("o'clock", text "twelve")]) (VNum 1)
                (Forall_nil_2 _) (Forall_nil_2 _) (Forall_nil_2 _) (Forall_nil_2 _)
                (or_intror eq_refl) Ho) as [H _].
  pose proof (escaped_quote_closes_the_key [] [] [] SQUOTE (js "a") (js "]")
                (object_of []) (VNum 1)
                (Forall_nil_2 _) (Forall_nil_2 _) (Forall_nil_2 _) (Forall_nil_2 _)
                (or_intror eq_refl) Ha) as [_ H'].
  destruct (H eq_refl) as [Hset Hget].
  split; [split; [exact Hset|exact (Hget _ eq_refl)]|].
  exact (H' [] [] (Forall_nil_2 _) eq_refl).
Defined.

(** C9 as stated fails: U+0085 (next line) is white space for Unicode
    and not for [/\s/]; put before the dot of [$.a] it stops the scan, so
    that the getter returns the root and the setter returns [false]. *)
Lemma next_line_is_not_skipped :
  every_host (fun host =>
    is_ws 133 = false /\
    getTinyJsonPath (object_of [("a", VNum 1)]) (js "$.a") = Returns (VNum 1) /\
    getTinyJsonPath (object_of [("a", VNum 1)]) (DOLLAR :: 133 :: js ".a")
      = Returns (object_of [("a", VNum 1)]) /\
    setTinyJsonPath (object_of []) (js "$.a") (VNum 2)
      = (Returns true, object_of [("a", VNum 2)]) /\
    setTinyJsonPath (object_of []) (DOLLAR :: 133 :: js ".a") (VNum 2)
      = (Returns false, object_of [])).
Proof. intros host. repeat split; vm_compute; reflexivity. Qed.

(** C9, an instance: the path of the repository's tests with and without
    its white space. *)
Lemma whitespace_is_ignored_witness :
  every_host (fun host =>
    let obj := object_of [("users", array_of [object_of [("name", text "A")];
                                              object_of [("name", text "B")]])] in
    getTinyJsonPath obj (js "$  .  users  [ 1 ]  .  name  ")
      = getTinyJsonPath obj (js "$.users[1].name") /\
    setTinyJsonPath obj (js "$  .  users  [ 1 ]  .  name  ") (text "Zed")
      = setTinyJsonPath obj (js "$.users[1].name") (text "Zed")).
Proof.
  intros host.
  refine (whitespace_is_ignored
            [PDot (js "  ") (js "  ") (js "users");
             PIndex (js "  ") (js " ") (js "1") (js " ");
             PDot (js "  ") (js "  ") (js "name")]
            [PDot [] [] (js "users"); PIndex [] [] (js "1") []; PDot [] [] (js "name")]
            (js "  ") [] _ (text "Zed") _ _ _ _ eq_refl).
  all: repeat (constructor || discriminate).
Defined.

(** * Further properties of the getter and the setter *)

(** ** The scanner *)

(** X1: what the first pass accepts is written in the grammar: the input
    it has read is a sequence of well-formed segments, then white space,
    up to where it stopped, and the segments it pushed are those written. *)
Theorem scanned_paths_follow_the_grammar rest segs unread :
  tokenize rest [] = Tokens segs unread ->
  exists ps w,
    rest = render ps ++ w ++ unread /\ Forall well_formed ps /\ blank w /\
    map token_of ps = map Some segs.
Proof. apply tokenize_sound. Qed.

(** X2: what is written in the grammar is scanned as written: a sequence
    of well-formed segments, each index at most [max_exact], then white
    space, is read to its end and gives the segments in order; the scan
    stops there when the input ends or goes on with a character that is
    none of a key, no white space, no dot and no opening bracket. *)
Theorem grammar_paths_are_scanned ps w unread segs :
  Forall well_formed ps -> blank w ->
  stops continues unread ->
  map token_of ps = map Some segs ->
  tokenize (render ps ++ w ++ unread) [] = Tokens segs unread.
Proof. apply tokenize_complete. Qed.

(** X3: no escape in quoted keys: some path has a segment for [key] if
    and only if [key] lacks a double quote or lacks a single quote. *)
Theorem keys_with_both_quotes_have_no_path key :
  (exists rest segs unread,
     tokenize rest [] = Tokens segs unread /\ SKey key ∈ segs)
  <-> ~ (DQUOTE ∈ key /\ SQUOTE ∈ key).
Proof.
  split.
  - intros (rest & segs & unread & T & Hin).
    destruct (tokenize_sound _ _ _ T) as (ps & w & _ & Hps & _ & E).
    assert (Some (SKey key) ∈ map token_of ps) as Hp
      by (rewrite E; by apply list_elem_of_fmap_2).
    apply list_elem_of_fmap in Hp as (p & Tp & Hp).
    rewrite Forall_forall in Hps. by apply (well_formed_key p); auto.
  - intros Hk.
    assert (exists q, (q = DQUOTE \/ q = SQUOTE) /\ q ∉ key) as (q & Hq & Hnot).
    { destruct (decide (DQUOTE ∈ key)) as [Hd|Hd]; [|eauto].
      destruct (decide (SQUOTE ∈ key)) as [Hs|Hs]; [tauto|eauto]. }
    exists (render [PQuoted [] [] q key []] ++ [] ++ []), [SKey key], [].
    split; [|by apply list_elem_of_singleton].
    apply tokenize_complete; try done; [|constructor].
    constructor; [|constructor]. simpl. repeat split; try done; try constructor.
    apply Forall_forall. intros c Hc. apply negb_true_iff, N.eqb_neq. by intros ->.
Qed.

(** X4: after [eatWs] the character under the cursor is no white space,
    so the branch [if (/\s/.test(path[i])) { i++; continue; }] that ends the
    body of both scanning loops is never taken: a turn of the loop scans a
    segment, stops the loop or ends the call. *)
Theorem whitespace_branch_is_never_taken input rest :
  scan_segment input <> ScanSkip rest.
Proof. apply scan_segment_never_skips. Qed.

Section Further.
Context {host : Host}.

(** X5: the getter and the setter read a path alike.  Where the first
    pass of the setter yields segments, the getter performs the steps of
    these segments and the setter walks them, both ignoring what is left
    unread.  Where the first pass returns [false] for a malformed segment,
    the getter performs the steps of the segments written before it and then
    returns [undefined]; so it returns [undefined] unless one of these steps
    has ended the call, inside a built-in object: there the read of [caller]
    or [arguments] of a built-in function throws a TypeError, and other
    reads are left aside. *)
Theorem both_functions_scan_alike obj rest x :
  match tokenize rest [] with
  | Tokens segs _ =>
      getTinyJsonPath obj (DOLLAR :: rest) = get_segs obj segs /\
      setTinyJsonPath obj (DOLLAR :: rest) x = second_pass obj segs x
  | TokError =>
      (absent (getTinyJsonPath obj (DOLLAR :: rest)) \/
       getTinyJsonPath obj (DOLLAR :: rest) = Throws TypeError) /\
      setTinyJsonPath obj (DOLLAR :: rest) x = (Returns false, obj) /\
      exists ps segs bad,
        rest = render ps ++ bad /\ Forall well_formed ps /\
        map token_of ps = map Some segs /\ scan_segment bad = ScanError /\
        getTinyJsonPath obj (DOLLAR :: rest) =
          match get_segs obj segs with
          | Returns _ => Returns VUndefined
          | o => o
          end
  | TokBeyond =>
      (absent (getTinyJsonPath obj (DOLLAR :: rest)) \/
       getTinyJsonPath obj (DOLLAR :: rest) = Throws TypeError) /\
      setTinyJsonPath obj (DOLLAR :: rest) x = (Beyond, obj)
  end.
Proof.
  unfold getTinyJsonPath, setTinyJsonPath. simpl.
  destruct (tokenize rest []) as [segs unread| |] eqn:T.
  - split; [by apply (get_loop_tokens _ _ _ unread)|done].
  - split; [apply get_loop_rejected; by left|]. split; [done|].
    destruct (get_loop_malformed rest T) as (ps & segs & bad & E & Hps & Tps & Eb & Hg).
    exists ps, segs, bad. by rewrite Hg.
  - split; [apply get_loop_rejected; by right|done].
Qed.

(** X6: the notation of a segment does not matter: two paths whose
    segments are the same keys and indexes, written with a dot, with double
    or with single quotes, with or without leading zeros, behave alike in
    the getter and in the setter. *)
Theorem notation_is_interchangeable ps ps' w w' obj x :
  Forall well_formed ps -> Forall well_formed ps' -> blank w -> blank w' ->
  map token_of ps = map token_of ps' ->
  getTinyJsonPath obj (DOLLAR :: render ps ++ w)
    = getTinyJsonPath obj (DOLLAR :: render ps' ++ w') /\
  setTinyJsonPath obj (DOLLAR :: render ps ++ w) x
    = setTinyJsonPath obj (DOLLAR :: render ps' ++ w') x.
Proof.
  intros Hps Hps' Hw Hw' Et. unfold getTinyJsonPath, setTinyJsonPath. simpl.
  rewrite !get_loop_render, !tokenize_render by auto using blank_stops_keychar.
  rewrite Et. split.
  - apply get_pieces_ext. intros cur. by rewrite !get_loop_blank.
  - rewrite (tokenize_pieces_ext _ (tokenize w) (tokenize w')); [reflexivity|].
    intros acc. by rewrite !tokenize_blank.
Qed.

(** ** The getter *)

(** X7: lookups compose: looking up a path that is scanned to its end,
    followed by more segments, is looking up the first path and then the
    rest from the value found. *)
Theorem lookup_composes obj rest rest' segs :
  tokenize rest [] = Tokens segs [] -> stops is_keychar rest' ->
  tokenize rest' [] <> TokBeyond ->
  getTinyJsonPath obj (DOLLAR :: rest ++ rest') =
  match getTinyJsonPath obj (DOLLAR :: rest) with
  | Returns v => getTinyJsonPath v (DOLLAR :: rest')
  | o => o
  end.
Proof. unfold getTinyJsonPath. simpl. apply get_loop_app. Qed.

(** ** The setter *)

(** X8: a later assignment overwrites an earlier one: after a call that
    returned [true], assigning another value at the same path returns
    [true] and leaves the structure that assigning that value in the first
    place would have left.  In particular the setter is idempotent.  (Aside
    are the calls that reach into the host, which do not return [true]
    here: a path with the key segment [__proto__], the key [length] of an
    array as the last segment, an index of [max_length] or more read from an
    array before the last segment.) *)
Theorem later_assign_overwrites obj path x y obj1 :
  setTinyJsonPath obj path x = (Returns true, obj1) ->
  (exists obj2,
     setTinyJsonPath obj path y = (Returns true, obj2) /\
     setTinyJsonPath obj1 path y = (Returns true, obj2)) /\
  setTinyJsonPath obj1 path x = (Returns true, obj1).
Proof.
  unfold setTinyJsonPath. destruct path as [|c rest]; [discriminate|].
  destruct (c =? DOLLAR); [|discriminate].
  destruct (tokenize rest []) as [segs unread| |]; try discriminate.
  destruct segs as [|seg more]; [discriminate|]. simpl. intros W. split.
  - apply (walk_twice _ _ _ x y _ W).
  - destruct (walk_twice _ _ _ x x _ W) as (obj2 & W1 & W2). congruence.
Qed.

(** X9: whether the setter returns [true], returns [false] or throws
    does not depend on the value, and a call that does not assign leaves
    the same structure whatever the value.  (Aside are the calls that reach
    into the host, where the host can inspect the value: a path with the
    key segment [__proto__], the key [length] of an array as the last
    segment, an index of [max_length] or more read from an array before the
    last segment.) *)
Theorem outcome_does_not_depend_on_the_value obj path x y :
  fst (setTinyJsonPath obj path x) <> Beyond ->
  fst (setTinyJsonPath obj path x) = fst (setTinyJsonPath obj path y) /\
  (fst (setTinyJsonPath obj path x) <> Returns true ->
   snd (setTinyJsonPath obj path x) = snd (setTinyJsonPath obj path y)).
Proof.
  intros _. unfold setTinyJsonPath. destruct path as [|c rest]; [done|].
  destruct (c =? DOLLAR); [|done].
  destruct (tokenize rest []) as [segs unread| |]; try done.
  destruct segs as [|seg more]; [done|]. apply walk_value.
Qed.

(** X10: when the value that holds the last slot of the path is there
    (the getter finds a value other than [null] and [undefined] along the
    segments before the last), a call that returns [false] or throws has
    changed nothing: a failed call changes the structure only by the
    containers it created. *)
Theorem failed_assign_below_a_value_changes_nothing
    obj rest pre last unread v x r obj' :
  tokenize rest [] = Tokens (pre ++ [last]) unread ->
  get_segs obj pre = Returns v -> is_nullish v = false ->
  setTinyJsonPath obj (DOLLAR :: rest) x = (r, obj') ->
  r = Returns false \/ (exists e, r = Throws e) ->
  obj' = obj.
Proof.
  intros T Hg Nl. unfold setTinyJsonPath. simpl. rewrite T. intros W Hr.
  pose proof (walk_unchanged pre obj last x v Hg Nl) as H.
  rewrite W in H. simpl in H. apply H.
  destruct Hr as [-> | [e ->]]; discriminate.
Qed.

(** X11: an assignment changes nothing that a path through another slot
    of the root finds: on an object, a path that starts with another
    segment; on an array, a path that starts with another index.  (Aside
    are the calls that reach into the host: a path with the key segment
    [__proto__], by which the code can write into a built-in prototype and
    so change what every object inherits, the key [length] of an array as
    the last segment, an index of [max_length] or more read from an array
    before the last segment.) *)
Theorem assign_leaves_other_slots
    obj rest rest' seg more unread seg' more' unread' x r obj' :
  tokenize rest [] = Tokens (seg :: more) unread ->
  tokenize rest' [] = Tokens (seg' :: more') unread' ->
  apart obj seg seg' ->
  setTinyJsonPath obj (DOLLAR :: rest) x = (r, obj') -> r <> Beyond ->
  getTinyJsonPath obj' (DOLLAR :: rest') = getTinyJsonPath obj (DOLLAR :: rest').
Proof.
  intros T T' Ha. unfold setTinyJsonPath, getTinyJsonPath. simpl. rewrite T. simpl.
  intros W _. rewrite !(get_loop_tokens _ _ _ _ T'). simpl.
  pose proof (walk_frame more obj seg x seg' Ha) as H.
  rewrite W in H. simpl in H. by rewrite H.
Qed.

(** X12: assigning below a container that is there is assigning inside
    it: when the getter finds an object or an array of the structure at a
    path (a container of data, not a built-in object reached through an
    inherited member), the setter on that path followed by more segments
    ends as the setter on these segments from that container, and leaves at
    the path the container as that call leaves it. *)
Theorem assign_below_a_container obj rest rest' segs seg more unread c x :
  tokenize rest [] = Tokens segs [] ->
  tokenize rest' [] = Tokens (seg :: more) unread ->
  getTinyJsonPath obj (DOLLAR :: rest) = Returns c -> is_container c = true ->
  fst (setTinyJsonPath obj (DOLLAR :: rest ++ rest') x)
    = fst (setTinyJsonPath c (DOLLAR :: rest') x) /\
  getTinyJsonPath (snd (setTinyJsonPath obj (DOLLAR :: rest ++ rest') x)) (DOLLAR :: rest)
    = Returns (snd (setTinyJsonPath c (DOLLAR :: rest') x)).
Proof.
  intros T T'. unfold setTinyJsonPath, getTinyJsonPath. simpl.
  rewrite (tokenize_join _ _ _ _ _ _ T T'), T', !(get_loop_tokens _ _ _ _ T).
  by apply second_pass_below.
Qed.

(** X13: the same below any container of the structure: when the getter
    finds an object or an array of data at a path, an assignment that goes
    on from there through one slot changes nothing that a lookup finds from
    there through another: the two go on with different segments, in an
    array with different indexes.  (Aside are the calls that reach into the
    host, as for X11.) *)
Theorem assign_leaves_other_slots_below
    obj rest rest' rest'' segs seg more unread seg' more' unread' c x r obj' :
  tokenize rest [] = Tokens segs [] ->
  tokenize rest' [] = Tokens (seg :: more) unread ->
  tokenize rest'' [] = Tokens (seg' :: more') unread' ->
  getTinyJsonPath obj (DOLLAR :: rest) = Returns c -> is_container c = true ->
  apart c seg seg' ->
  setTinyJsonPath obj (DOLLAR :: rest ++ rest') x = (r, obj') -> r <> Beyond ->
  getTinyJsonPath obj' (DOLLAR :: rest ++ rest'')
    = getTinyJsonPath obj (DOLLAR :: rest ++ rest'').
Proof.
  intros T T' T'' Hg Hc Ha. unfold setTinyJsonPath, getTinyJsonPath in *. simpl in *.
  rewrite (tokenize_join _ _ _ _ _ _ T T').
  rewrite !(get_loop_tokens _ _ _ _ (tokenize_join _ _ _ _ _ _ T T'')).
  rewrite (get_loop_tokens _ _ _ _ T) in Hg. intros W _.
  pose proof (second_pass_frame segs obj c seg more seg' more' x Hg Hc Ha) as H.
  by rewrite W in H.
Qed.

(** X14: a property can always be put into an object of the structure:
    when the getter finds an object of data at a path (not a built-in
    object reached through an inherited member), the setter on that path
    followed by one key segment (other than [__proto__]) returns [true], and
    the object at the path is then the one found before with the property
    of that name set to the value, its other properties as they were. *)
Theorem assign_into_an_object_that_is_there obj rest rest' segs key unread props x :
  tokenize rest [] = Tokens segs [] ->
  tokenize rest' [] = Tokens [SKey key] unread -> key <> js "__proto__" ->
  getTinyJsonPath obj (DOLLAR :: rest) = Returns (VObject props) ->
  exists obj',
    setTinyJsonPath obj (DOLLAR :: rest ++ rest') x = (Returns true, obj') /\
    getTinyJsonPath obj' (DOLLAR :: rest) = Returns (VObject (<[key := x]> props)).
Proof.
  intros T T' Hk. unfold setTinyJsonPath, getTinyJsonPath. simpl.
  rewrite (tokenize_join _ _ _ _ _ _ T T'), (get_loop_tokens _ _ _ _ T). intros Hg.
  destruct (walk_into segs obj _ (SKey key) x (VObject (<[key := x]> props)) Hg eq_refl)
    as (obj' & W & Hg').
  { simpl. unfold store_prop. by rewrite decide_False. }
  exists obj'. split; [done|]. by rewrite (get_loop_tokens _ _ _ _ T).
Qed.

(** X15: an element can always be put into an array of the structure:
    when the getter finds an array of data at a path (not the built-in
    [Array.prototype]), the setter on that path followed by one index
    segment below [max_length] returns [true]; the array at the path then
    holds the value at the index, has the length it had or [idx + 1] if that
    is more, keeps its other elements where they were and has holes from
    its old length up to the index. *)
Theorem assign_into_an_array_that_is_there obj rest rest' segs idx unread elems props x :
  tokenize rest [] = Tokens segs [] ->
  tokenize rest' [] = Tokens [SIndex idx] unread -> idx < max_length ->
  getTinyJsonPath obj (DOLLAR :: rest) = Returns (VArray elems props) ->
  exists obj' elems',
    setTinyJsonPath obj (DOLLAR :: rest ++ rest') x = (Returns true, obj') /\
    getTinyJsonPath obj' (DOLLAR :: rest) = Returns (VArray elems' props) /\
    length elems' = (length elems `max` S (N.to_nat idx))%nat /\
    elems' !! N.to_nat idx = Some (Some x) /\
    (forall j, (j < length elems)%nat -> j <> N.to_nat idx -> elems' !! j = elems !! j) /\
    (forall j, (length elems <= j < N.to_nat idx)%nat -> elems' !! j = Some None).
Proof.
  intros T T' Hmax. unfold setTinyJsonPath, getTinyJsonPath. simpl.
  rewrite (tokenize_join _ _ _ _ _ _ T T'), (get_loop_tokens _ _ _ _ T). intros Hg.
  destruct (walk_into segs obj _ (SIndex idx) x _ Hg eq_refl
              (assign_last_array elems props idx x Hmax)) as (obj' & W & Hg').
  exists obj', (store_elem elems (N.to_nat idx) x).
  split; [done|]. split; [by rewrite (get_loop_tokens _ _ _ _ T)|].
  split; [apply store_elem_length|]. split; [apply store_elem_lookup|].
  split; [intros j Hj Hne; by apply store_elem_old|intros j Hj; by apply store_elem_hole].
Qed.

(** X16: what is absent is created: when the getter finds at a path a
    container of the structure that serves the next segment (an object or
    an array of data for a key, an array of data for an index), and [null]
    or [undefined] at that segment, the setter on a path that goes on with
    segments whose keys name no member of [Object.prototype] and whose
    indexes are below [max_length] returns [true], and the slot then holds
    the nest of objects and arrays along these segments around the value. *)
Theorem assign_creates_what_is_absent
    obj rest slot rest' segs seg next more unread c v x :
  tokenize rest [] = Tokens segs [] -> tokenize slot [] = Tokens [seg] [] ->
  tokenize rest' [] = Tokens (next :: more) unread ->
  getTinyJsonPath obj (DOLLAR :: rest) = Returns c -> serves c seg ->
  getTinyJsonPath obj (DOLLAR :: rest ++ slot) = Returns v -> is_nullish v = true ->
  Forall plain (next :: more) ->
  exists obj',
    setTinyJsonPath obj (DOLLAR :: rest ++ slot ++ rest') x = (Returns true, obj') /\
    getTinyJsonPath obj' (DOLLAR :: rest ++ slot) = Returns (spine next more x).
Proof.
  intros T Ts T' Hg Hs Hv Nl Hp.
  pose proof (tokenize_join _ _ _ _ _ _ T Ts) as Tslot.
  pose proof (tokenize_join _ _ _ _ _ _ Tslot T') as Tall.
  rewrite <- !app_assoc in Tall. simpl in Tall.
  unfold setTinyJsonPath, getTinyJsonPath in *. simpl in *. rewrite Tall.
  rewrite (get_loop_tokens _ _ _ _ T) in Hg.
  rewrite (get_loop_tokens _ _ _ _ Tslot), get_segs_app, Hg in Hv.
  assert (is_container c = true) as Hc.
  { apply container_shape. destruct seg; simpl in Hs; [done|]. by rewrite Hs. }
  destruct (walk_creates c seg next more x v Hs (serves_step _ _ _ Hs Hv) Nl Hp)
    as (c' & W & S).
  destruct (second_pass_below segs obj c seg (next :: more) x Hg Hc) as [H1 H2].
  rewrite W in H1, H2. simpl in H1, H2.
  destruct (second_pass obj (segs ++ seg :: next :: more) x) as [r obj'].
  simpl in *. subst r. exists obj'. split; [done|].
  rewrite (get_loop_tokens _ _ _ _ Tslot), get_segs_app, H2. simpl. by rewrite S.
Qed.

(** X17: from nothing the setter builds what the path describes: on an
    empty object for a path that starts with a key, or an empty array for
    one that starts with an index, with keys that name no member of
    [Object.prototype] and indexes below the largest array length, the call
    returns [true] and leaves the nest of objects and arrays along the
    segments, each array with holes before its index, around the value. *)
Theorem assign_from_empty_builds_the_nest rest seg more unread x :
  tokenize rest [] = Tokens (seg :: more) unread -> Forall plain (seg :: more) ->
  setTinyJsonPath (fresh_container seg) (DOLLAR :: rest) x
    = (Returns true, spine seg more x).
Proof.
  intros T Hp. unfold setTinyJsonPath. simpl. rewrite T. simpl. by apply walk_fresh.
Qed.

(** X18: with [null] or [undefined] for the structure the setter returns
    [false] when the path has one segment or starts with an index, and
    throws a TypeError when it has more segments and starts with a key. *)
Theorem assign_on_a_null_root obj rest seg more unread x :
  is_nullish obj = true -> tokenize rest [] = Tokens (seg :: more) unread ->
  setTinyJsonPath obj (DOLLAR :: rest) x =
  (if is_index seg || bool_decide (more = []) then Returns false else Throws TypeError,
   obj).
Proof.
  intros Nl T. unfold setTinyJsonPath. simpl. rewrite T. simpl. by apply walk_nullish.
Qed.

(** X19: assignments under different keys of an object can be made in
    either order: when each of two calls returns [true] on the object, each
    returns [true] after the other, and both orders leave the same
    structure (an object being its properties by name, whatever the order
    in which they were created).  (Aside are the calls that reach into the
    host, which do not return [true] here: a path with the key segment
    [__proto__], which can change what the other path inherits, the key
    [length] of an array as the last segment, an index of [max_length] or
    more read from an array before the last segment.) *)
Theorem assigns_under_different_keys_commute
    props rest rest' key more unread key' more' unread' x y obj1 obj2 :
  tokenize rest [] = Tokens (SKey key :: more) unread ->
  tokenize rest' [] = Tokens (SKey key' :: more') unread' ->
  key <> key' ->
  setTinyJsonPath (VObject props) (DOLLAR :: rest) x = (Returns true, obj1) ->
  setTinyJsonPath (VObject props) (DOLLAR :: rest') y = (Returns true, obj2) ->
  exists obj3,
    setTinyJsonPath obj1 (DOLLAR :: rest') y = (Returns true, obj3) /\
    setTinyJsonPath obj2 (DOLLAR :: rest) x = (Returns true, obj3).
Proof.
  intros T T' Hk. unfold setTinyJsonPath. simpl. rewrite T, T'. simpl.
  intros W W'.
  destruct (walk_object_local props props key more x eq_refl)
    as (r & o & Wo & _). rewrite W in Wo. injection Wo as <- ->.
  destruct (walk_object_local props props key' more' y eq_refl)
    as (r' & o' & Wo' & _). rewrite W' in Wo'. injection Wo' as <- ->.
  destruct (walk_object_local props (put key o props) key' more' y)
    as (r1 & o1 & W1 & W1'); [by rewrite put_other|].
  destruct (walk_object_local props (put key' o' props) key more x)
    as (r2 & o2 & W2 & W2'); [by rewrite put_other|].
  rewrite W' in W1. injection W1 as <- E1. rewrite W in W2. injection W2 as <- E2.
  exists (VObject (put key' o1 (put key o props))). split; [done|].
  rewrite W2'. f_equal. f_equal. apply map_eq. intros k.
  destruct (decide (k = key)) as [->|Hne]; [|destruct (decide (k = key')) as [->|Hne']].
  - rewrite (put_other key' o1) by done.
    rewrite (put_same key o2 _ props) by (by rewrite put_other).
    by rewrite E2.
  - rewrite (put_other key o2) by done.
    rewrite (put_same key' o1 _ props) by (by rewrite put_other).
    by rewrite E1.
  - by rewrite !put_other.
Qed.

(** X20: from an object or an array of data the setter throws no
    TypeError: it throws only a RangeError, and only when the last segment
    is an index of at least [max_length], for which an array cannot grow.
    (Aside are the calls that reach into the host, which do not throw here:
    a path with the key segment [__proto__], the key [length] of an array as
    the last segment, an index of [max_length] or more read from an array
    before the last segment.) *)
Theorem assign_on_a_container_throws_only_on_growth obj rest segs unread x e obj' :
  is_container obj = true -> tokenize rest [] = Tokens segs unread ->
  setTinyJsonPath obj (DOLLAR :: rest) x = (Throws e, obj') ->
  e = RangeError /\ exists idx, last segs = Some (SIndex idx) /\ max_length <= idx.
Proof.
  intros Hc T. unfold setTinyJsonPath. simpl. rewrite T.
  destruct segs as [|seg more]; [discriminate|]. simpl. intros W.
  apply (walk_throws more obj seg x e Hc). by rewrite W.
Qed.

(** ** Where the getter throws *)

(** X21: on a path that the first pass accepts the getter throws nothing
    but a TypeError, and only at a key segment [caller] or [arguments]
    reached with a built-in function for the current value: the guard
    [cur == null] keeps [null] and [undefined] from being read, and
    [Array.isArray] keeps an index from being read from anything but an
    array.  (Other reads inside a built-in object are left aside.) *)
Theorem lookup_throws_only_inside_a_function obj rest segs unread e :
  tokenize rest [] = Tokens segs unread ->
  getTinyJsonPath obj (DOLLAR :: rest) = Throws e ->
  e = TypeError /\
  exists pre key post,
    segs = pre ++ SKey key :: post /\ key ∈ restricted /\
    get_segs obj pre = Returns (VHost HFunction).
Proof.
  intros T. unfold getTinyJsonPath. simpl. rewrite (get_loop_tokens _ _ _ _ T).
  apply get_segs_throws.
Qed.

End Further.

(** ** Instances *)

(** X1, an instance: the scan of [.a[ 0 ]?] stops at the question mark. *)
Lemma scanned_paths_follow_the_grammar_witness :
  tokenize (js ".a[ 0 ]?") [] = Tokens [SKey (js "a"); SIndex 0] (js "?") /\
  exists ps w,
    js ".a[ 0 ]?" = render ps ++ w ++ js "?" /\ Forall well_formed ps /\ blank w /\
    map token_of ps = map Some [SKey (js "a"); SIndex 0].
Proof.
  assert (tokenize (js ".a[ 0 ]?") [] = Tokens [SKey (js "a"); SIndex 0] (js "?")) as H
    by (vm_compute; reflexivity).
  split; [exact H|]. exact (scanned_paths_follow_the_grammar _ _ _ H).
Defined.

(** X2, an instance: [ .users[ 01 ]['name'] ], followed by [!]. *)
Lemma grammar_paths_are_scanned_witness :
  tokenize (render [PDot (js " ") [] (js "users"); PIndex [] (js " ") (js "01") (js " ");
                    PQuoted [] [] SQUOTE (js "name") []] ++ js " " ++ js "!") []
    = Tokens [SKey (js "users"); SIndex 1; SKey (js "name")] (js "!").
Proof.
  refine (grammar_paths_are_scanned
            [PDot (js " ") [] (js "users"); PIndex [] (js " ") (js "01") (js " ");
             PQuoted [] [] SQUOTE (js "name") []]
            (js " ") (js "!") [SKey (js "users"); SIndex 1; SKey (js "name")] _ _ _ _).
  - repeat first [reflexivity | by right | constructor | discriminate].
  - repeat constructor.
  - reflexivity.
  - reflexivity.
Defined.

(** X6, an instance: the dashed keys of the repository's round-trip
    test, by dot and by bracket, and an index with a leading zero. *)
Lemma notation_is_interchangeable_witness :
  every_host (fun host =>
    let obj := object_of [("k-1", array_of [VNum 0; object_of [("k-2", text "ok")]])] in
    getTinyJsonPath obj (js "$.k-1[1].k-2") = getTinyJsonPath obj (js "$['k-1'][01]['k-2']") /\
    setTinyJsonPath obj (js "$.k-1[1].k-2") (VNum 7)
      = setTinyJsonPath obj (js "$['k-1'][01]['k-2']") (VNum 7)).
Proof.
  intros host.
  refine (notation_is_interchangeable
            [PDot [] [] (js "k-1"); PIndex [] [] (js "1") []; PDot [] [] (js "k-2")]
            [PQuoted [] [] SQUOTE (js "k-1") []; PIndex [] [] (js "01") [];
             PQuoted [] [] SQUOTE (js "k-2") []]
            [] [] _ (VNum 7) _ _ _ _ eq_refl).
  all: repeat first [reflexivity | by right | constructor | discriminate].
Defined.

(** X7, an instance: [$.a] and then [[1].b]. *)
Lemma lookup_composes_witness :
  every_host (fun host =>
    let obj := object_of [("a", array_of [VNum 0; object_of [("b", VNum 7)]])] in
    getTinyJsonPath obj (js "$.a" ++ js "[1].b") =
    match getTinyJsonPath obj (js "$.a") with
    | Returns v => getTinyJsonPath v (js "$[1].b")
    | o => o
    end).
Proof.
  intros host.
  assert (tokenize (js ".a") [] = Tokens [SKey (js "a")] []) as T
    by (vm_compute; reflexivity).
  refine (lookup_composes _ (js ".a") (js "[1].b") _ T _ _).
  - reflexivity.
  - vm_compute. discriminate.
Defined.

(** X8, an instance: [$.list[1].name] assigned twice from [{}]. *)
Lemma later_assign_overwrites_witness :
  every_host (fun host =>
    let obj1 := object_of [("list", VArray [None; Some (object_of [("name", text "Joe")])] ∅)] in
    setTinyJsonPath (object_of []) (js "$.list[1].name") (text "Joe") = (Returns true, obj1) /\
    (exists obj2,
       setTinyJsonPath (object_of []) (js "$.list[1].name") (text "Zed") = (Returns true, obj2) /\
       setTinyJsonPath obj1 (js "$.list[1].name") (text "Zed") = (Returns true, obj2)) /\
    setTinyJsonPath obj1 (js "$.list[1].name") (text "Joe") = (Returns true, obj1)).
Proof.
  intros host.
  assert (setTinyJsonPath (object_of []) (js "$.list[1].name") (text "Joe")
          = (Returns true,
             object_of [("list", VArray [None; Some (object_of [("name", text "Joe")])] ∅)]))
    as H by (vm_compute; reflexivity).
  split; [exact H|]. exact (later_assign_overwrites _ _ _ (text "Zed") _ H).
Defined.

(** X9, an instance: [$.a.b] on [{a: 5}] returns [false] for a number
    and for a string. *)
Lemma outcome_does_not_depend_on_the_value_witness :
  every_host (fun host =>
    let obj := object_of [("a", VNum 5)] in
    fst (setTinyJsonPath obj (js "$.a.b") (VNum 1)) <> Beyond /\
    fst (setTinyJsonPath obj (js "$.a.b") (VNum 1))
      = fst (setTinyJsonPath obj (js "$.a.b") (text "s")) /\
    (fst (setTinyJsonPath obj (js "$.a.b") (VNum 1)) <> Returns true ->
     snd (setTinyJsonPath obj (js "$.a.b") (VNum 1))
       = snd (setTinyJsonPath obj (js "$.a.b") (text "s")))).
Proof.
  intros host.
  assert (fst (setTinyJsonPath (object_of [("a", VNum 5)]) (js "$.a.b") (VNum 1)) <> Beyond)
    as H by (vm_compute; discriminate).
  split; [exact H|].
  exact (outcome_does_not_depend_on_the_value _ _ (VNum 1) (text "s") H).
Defined.

(** X10, an instance: [$.a.b[0]] on [{a: {b: 5}}], where the number in
    the slot of [b] is no array. *)
Lemma failed_assign_below_a_value_changes_nothing_witness :
  every_host (fun host =>
    let obj := object_of [("a", object_of [("b", VNum 5)])] in
    fst (setTinyJsonPath obj (js "$.a.b[0]") (VNum 1)) = Returns false /\
    snd (setTinyJsonPath obj (js "$.a.b[0]") (VNum 1)) = obj).
Proof.
  intros host.
  assert (tokenize (js ".a.b[0]") [] = Tokens ([SKey (js "a"); SKey (js "b")] ++ [SIndex 0]) [])
    as T by (vm_compute; reflexivity).
  assert (get_segs (object_of [("a", object_of [("b", VNum 5)])]) [SKey (js "a"); SKey (js "b")]
          = Returns (VNum 5)) as G by (vm_compute; reflexivity).
  assert (fst (setTinyJsonPath (object_of [("a", object_of [("b", VNum 5)])])
                 (js "$.a.b[0]") (VNum 1)) = Returns false) as R
    by (vm_compute; reflexivity).
  split; [exact R|].
  exact (failed_assign_below_a_value_changes_nothing
           _ _ _ _ _ _ (VNum 1) _ _ T G eq_refl (surjective_pairing _) (or_introl R)).
Defined.

(** X11, an instance: assigning below [a] leaves what is found below
    [b]. *)
Lemma assign_leaves_other_slots_witness :
  every_host (fun host =>
    let obj := object_of [("a", object_of []); ("b", array_of [VNum 1; VNum 2])] in
    getTinyJsonPath (snd (setTinyJsonPath obj (js "$.a.c[3]") (VNum 9))) (js "$.b[1]")
      = getTinyJsonPath obj (js "$.b[1]")).
Proof.
  intros host.
  assert (tokenize (js ".a.c[3]") [] = Tokens [SKey (js "a"); SKey (js "c"); SIndex 3] [])
    as T by (vm_compute; reflexivity).
  assert (tokenize (js ".b[1]") [] = Tokens [SKey (js "b"); SIndex 1] [])
    as T' by (vm_compute; reflexivity).
  refine (assign_leaves_other_slots _ _ _ _ _ _ _ _ _ (VNum 9) _ _ T T' _
            (surjective_pairing _) _).
  - split; [discriminate|]. discriminate.
  - vm_compute. discriminate.
Defined.

(** X12, an instance: [$.a] holds an object, and [.b[0]] is assigned
    below it. *)
Lemma assign_below_a_container_witness :
  every_host (fun host =>
    let obj := object_of [("a", object_of [("k", VNum 1)])] in
    fst (setTinyJsonPath obj (js "$.a" ++ js ".b[0]") (VNum 9))
      = fst (setTinyJsonPath (object_of [("k", VNum 1)]) (js "$.b[0]") (VNum 9)) /\
    getTinyJsonPath (snd (setTinyJsonPath obj (js "$.a" ++ js ".b[0]") (VNum 9))) (js "$.a")
      = Returns (snd (setTinyJsonPath (object_of [("k", VNum 1)]) (js "$.b[0]") (VNum 9)))).
Proof.
  intros host.
  assert (tokenize (js ".a") [] = Tokens [SKey (js "a")] []) as T
    by (vm_compute; reflexivity).
  assert (tokenize (js ".b[0]") [] = Tokens [SKey (js "b"); SIndex 0] []) as T'
    by (vm_compute; reflexivity).
  refine (assign_below_a_container _ (js ".a") (js ".b[0]") _ _ _ _
            (object_of [("k", VNum 1)]) (VNum 9) T T' _ eq_refl).
  vm_compute. reflexivity.
Defined.

(** X13, an instance: below [$.u], assigning through [a] leaves what is
    found through [b]. *)
Lemma assign_leaves_other_slots_below_witness :
  every_host (fun host =>
    let obj := object_of [("u", object_of [("a", object_of []);
                                           ("b", array_of [VNum 1; VNum 2])])] in
    getTinyJsonPath (snd (setTinyJsonPath obj (js "$.u" ++ js ".a.c[3]") (VNum 9)))
                    (js "$.u" ++ js ".b[1]")
      = getTinyJsonPath obj (js "$.u" ++ js ".b[1]")).
Proof.
  intros host.
  assert (tokenize (js ".u") [] = Tokens [SKey (js "u")] []) as T
    by (vm_compute; reflexivity).
  assert (tokenize (js ".a.c[3]") [] = Tokens [SKey (js "a"); SKey (js "c"); SIndex 3] [])
    as T' by (vm_compute; reflexivity).
  assert (tokenize (js ".b[1]") [] = Tokens [SKey (js "b"); SIndex 1] [])
    as T'' by (vm_compute; reflexivity).
  refine (assign_leaves_other_slots_below _ (js ".u") (js ".a.c[3]") (js ".b[1]")
            _ _ _ _ _ _ _
            (object_of [("a", object_of []); ("b", array_of [VNum 1; VNum 2])])
            (VNum 9) _ _ T T' T'' _ eq_refl _ (surjective_pairing _) _).
  - vm_compute. reflexivity.
  - split; discriminate.
  - vm_compute. discriminate.
Defined.

(** X14, an instance: the key [c] put into the object at [$.a[0]]. *)
Lemma assign_into_an_object_that_is_there_witness :
  every_host (fun host =>
    let obj := object_of [("a", array_of [object_of [("b", VNum 1)]])] in
    exists obj',
      setTinyJsonPath obj (js "$.a[0]" ++ js ".c") (VNum 2) = (Returns true, obj') /\
      getTinyJsonPath obj' (js "$.a[0]")
        = Returns (VObject (<[js "c" := VNum 2]> (list_to_map [(js "b", VNum 1)])))).
Proof.
  intros host.
  assert (tokenize (js ".a[0]") [] = Tokens [SKey (js "a"); SIndex 0] []) as T
    by (vm_compute; reflexivity).
  assert (tokenize (js ".c") [] = Tokens [SKey (js "c")] []) as T'
    by (vm_compute; reflexivity).
  refine (assign_into_an_object_that_is_there _ (js ".a[0]") (js ".c") _ _ _ _ (VNum 2)
            T T' _ _).
  - discriminate.
  - vm_compute. reflexivity.
Defined.

(** X15, an instance: the index 3 of the array at [$.a], as in the
    repository's test of growth. *)
Lemma assign_into_an_array_that_is_there_witness :
  every_host (fun host =>
    let obj := object_of [("a", array_of [text "x"])] in
    exists obj' elems',
      setTinyJsonPath obj (js "$.a" ++ js "[3]") (text "y") = (Returns true, obj') /\
      getTinyJsonPath obj' (js "$.a") = Returns (VArray elems' ∅) /\
      length elems' = (length [Some (text "x")] `max` S (N.to_nat 3))%nat /\
      elems' !! N.to_nat 3 = Some (Some (text "y")) /\
      (forall j, (j < length [Some (text "x")])%nat -> j <> N.to_nat 3 ->
                 elems' !! j = [Some (text "x")] !! j) /\
      (forall j, (length [Some (text "x")] <= j < N.to_nat 3)%nat -> elems' !! j = Some None)).
Proof.
  intros host.
  assert (tokenize (js ".a") [] = Tokens [SKey (js "a")] []) as T
    by (vm_compute; reflexivity).
  assert (tokenize (js "[3]") [] = Tokens [SIndex 3] []) as T'
    by (vm_compute; reflexivity).
  refine (assign_into_an_array_that_is_there _ (js ".a") (js "[3]") _ _ _ _ _ (text "y")
            T T' _ _).
  - reflexivity.
  - vm_compute. reflexivity.
Defined.

(** X16, an instance: [list] is absent in the object at [$.a], and
    [[1].name] is assigned below it. *)
Lemma assign_creates_what_is_absent_witness :
  every_host (fun host =>
    let obj := object_of [("a", object_of [("k", VNum 1)])] in
    exists obj',
      setTinyJsonPath obj (js "$.a" ++ js ".list" ++ js "[1].name") (text "Joe")
        = (Returns true, obj') /\
      getTinyJsonPath obj' (js "$.a" ++ js ".list")
        = Returns (VArray [None; Some (VObject {[ js "name" := text "Joe" ]})] ∅)).
Proof.
  intros host.
  assert (tokenize (js ".a") [] = Tokens [SKey (js "a")] []) as T
    by (vm_compute; reflexivity).
  assert (tokenize (js ".list") [] = Tokens [SKey (js "list")] []) as Ts
    by (vm_compute; reflexivity).
  assert (tokenize (js "[1].name") [] = Tokens [SIndex 1; SKey (js "name")] []) as T'
    by (vm_compute; reflexivity).
  refine (assign_creates_what_is_absent _ (js ".a") (js ".list") (js "[1].name")
            _ _ _ _ _ (object_of [("k", VNum 1)]) VUndefined (text "Joe")
            T Ts T' _ _ _ eq_refl _).
  - vm_compute. reflexivity.
  - discriminate.
  - vm_compute. reflexivity.
  - repeat first [ reflexivity | constructor | discriminate
                 | apply (bool_decide_eq_false_1 _); vm_compute; reflexivity ].
Defined.

(** X17, an instance: [$.users[2].name] from [{}], as in the
    repository's test of mixed nesting. *)
Lemma assign_from_empty_builds_the_nest_witness :
  every_host (fun host =>
    setTinyJsonPath empty_object (js "$.users[2].name") (text "Zed")
      = (Returns true,
         VObject {[ js "users" :=
           VArray [None; None; Some (VObject {[ js "name" := text "Zed" ]})] ∅ ]})).
Proof.
  intros host.
  assert (tokenize (js ".users[2].name") []
          = Tokens [SKey (js "users"); SIndex 2; SKey (js "name")] []) as T
    by (vm_compute; reflexivity).
  refine (assign_from_empty_builds_the_nest _ _ _ _ (text "Zed") T _).
  repeat first [ reflexivity | constructor | discriminate
               | apply (bool_decide_eq_false_1 _); vm_compute; reflexivity ].
Defined.

(** X18, an instance: [undefined] for the structure, and a path of two
    segments that starts with a key. *)
Lemma assign_on_a_null_root_witness :
  every_host (fun host =>
    setTinyJsonPath VUndefined (js "$['k'][0]") (VNum 1) = (Throws TypeError, VUndefined)).
Proof.
  intros host.
  assert (tokenize (js "['k'][0]") [] = Tokens [SKey (js "k"); SIndex 0] []) as T
    by (vm_compute; reflexivity).
  exact (assign_on_a_null_root VUndefined _ _ _ _ (VNum 1) eq_refl T).
Defined.

(** X19, an instance: [$.a.b] and [$.c[0]] on [{}], in both orders. *)
Lemma assigns_under_different_keys_commute_witness :
  every_host (fun host =>
    exists obj3,
      setTinyJsonPath (object_of [("a", object_of [("b", VNum 1)])]) (js "$.c[0]") (VNum 2)
        = (Returns true, obj3) /\
      setTinyJsonPath (object_of [("c", array_of [VNum 2])]) (js "$.a.b") (VNum 1)
        = (Returns true, obj3)).
Proof.
  intros host.
  assert (tokenize (js ".a.b") [] = Tokens [SKey (js "a"); SKey (js "b")] []) as T
    by (vm_compute; reflexivity).
  assert (tokenize (js ".c[0]") [] = Tokens [SKey (js "c"); SIndex 0] []) as T'
    by (vm_compute; reflexivity).
  refine (assigns_under_different_keys_commute ∅ _ _ _ _ _ _ _ _ (VNum 1) (VNum 2)
            _ _ T T' _ _ _).
  - discriminate.
  - vm_compute. reflexivity.
  - vm_compute. reflexivity.
Defined.

(** X20, an instance: the array under [a] cannot grow to hold the index
    [4294967295]. *)
Lemma assign_on_a_container_throws_only_on_growth_witness :
  every_host (fun host =>
    setTinyJsonPath (object_of [("a", array_of [])]) (js "$.a[4294967295]") (VNum 1)
      = (Throws RangeError, object_of [("a", array_of [])]) /\
    RangeError = RangeError /\
    exists idx, last [SKey (js "a"); SIndex 4294967295] = Some (SIndex idx) /\
                max_length <= idx).
Proof.
  intros host.
  assert (tokenize (js ".a[4294967295]") [] = Tokens [SKey (js "a"); SIndex 4294967295] [])
    as T by (vm_compute; reflexivity).
  assert (setTinyJsonPath (object_of [("a", array_of [])]) (js "$.a[4294967295]") (VNum 1)
          = (Throws RangeError, object_of [("a", array_of [])])) as W
    by (vm_compute; reflexivity).
  split; [exact W|].
  exact (assign_on_a_container_throws_only_on_growth
           (object_of [("a", array_of [])]) _ _ _ _ _ _ eq_refl T W).
Defined.

(** X21, an instance: [$.toString.arguments] on [{}]. *)
Lemma lookup_throws_only_inside_a_function_witness :
  every_host (fun host =>
    getTinyJsonPath (object_of []) (js "$.toString.arguments") = Throws TypeError /\
    TypeError = TypeError /\
    exists pre key post,
      [SKey (js "toString"); SKey (js "arguments")] = pre ++ SKey key :: post /\
      key ∈ restricted /\
      get_segs (object_of []) pre = Returns (VHost HFunction)).
Proof.
  intros host.
  assert (tokenize (js ".toString.arguments") []
          = Tokens [SKey (js "toString"); SKey (js "arguments")] []) as T
    by (vm_compute; reflexivity).
  assert (getTinyJsonPath (object_of []) (js "$.toString.arguments") = Throws TypeError)
    as G by (vm_compute; reflexivity).
  split; [exact G|].
  exact (lookup_throws_only_inside_a_function (object_of []) _ _ _ _ T G).
Defined.
